(** * The alias dictionary of the multipass command-line client

    A shallow embedding of [mp::AliasDict] (alias_dict.cpp, alias_dict.h):
    the in-memory registry of aliases grouped by contexts, its JSON codec
    and the load/save protocol on the file system, followed by the
    properties of these functions.

    Conventions of the embedding.
    - A [std::string] is a [string], a sequence of bytes.  A [QString]
      is the sequence of the code points of its text; the conversions
      [QString::fromStdString] and [toStdString] decode and encode UTF-8
      as Qt does.  A string inside a JSON value or a key of a JSON object
      is entered as the [std::string] that [toStdString] returns for it,
      so that [to_json] enters [toStdString (fromStdString s)] where the
      source passes the [std::string] [s] to Qt, and [load_dict] reads
      the strings of a document as they are.  The path [aliases_file] is
      made by [toStdString] in the constructor and names the file it was
      made for.
    - [std::unordered_map<std::string, T>] is [gmap string T].  The order
      in which such a map is traversed is not fixed by the language; every
      function that traverses one takes the traversal as a parameter
      [enumerate], which is only known to list the bindings of the map.
    - A [QJsonObject] is the list of its (key, value) pairs in the order in
      which its iterators visit them.
    - A function that can throw [std::runtime_error] returns a [result]. *)

From stdpp Require Import gmap strings list fin_maps.
From Stdlib Require Import String Ascii NArith.

Open Scope string_scope.
Open Scope list_scope.
Open Scope stdpp_scope.

(** ** Data model *)

(** Modelled from the spec: multipass/alias_definition.h is not part of the
    sources at hand.  The three fields are the ones alias_dict.cpp reads and
    writes, all of them [std::string]; [AliasContext] is the map from alias
    names to definitions that the source traverses, searches and erases
    from. *)
Record AliasDefinition := mkAliasDefinition {
  instance : string;
  command : string;
  working_directory : string
}.

#[global] Instance AliasDefinition_eq_dec : EqDecision AliasDefinition.
Proof. solve_decision. Defined.

Abbreviation AliasContext := (gmap string AliasDefinition).
Abbreviation DictType := (gmap string AliasContext).

(** The data members of [class AliasDict] (the two output streams apart). *)
Record AliasDict := mkAliasDict {
  active_context : string;
  aliases : DictType;
  modified : bool;
  aliases_file : string
}.

Definition set_aliases (m : DictType) (s : AliasDict) : AliasDict :=
  mkAliasDict (active_context s) m (modified s) (aliases_file s).

Definition set_modified (b : bool) (s : AliasDict) : AliasDict :=
  mkAliasDict (active_context s) (aliases s) b (aliases_file s).

(** ** Operations of [std::unordered_map] used by the source *)

(** [m[k]]: a reference to the value bound to [k], which is first bound to
    a default-constructed value when [k] is absent.  The pair is the value
    referred to and the map after the call. *)
Definition subscript (k : string) (m : DictType) : AliasContext * DictType :=
  match m !! k with
  | Some c => (c, m)
  | None => (∅, <[k := ∅]> m)
  end.

(** [m.try_emplace(k, v)] and [m.emplace(k, v)]: bind [k] to [v] unless [k]
    is bound already; the boolean is the [.second] of the C++ result. *)
Definition try_emplace {A : Type} (k : string) (v : A) (m : gmap string A)
  : gmap string A * bool :=
  match m !! k with
  | Some _ => (m, false)
  | None => (<[k := v]> m, true)
  end.

(** [m.erase(k)]: the number of bindings removed. *)
Definition erase {A : Type} (k : string) (m : gmap string A)
  : gmap string A * nat :=
  match m !! k with
  | Some _ => (delete k m, 1)
  | None => (m, 0)
  end.

(** ** The registry: queries and mutations *)

Definition set_active_context (new_active_context : string) (s : AliasDict)
  : AliasDict :=
  mkAliasDict new_active_context
              (try_emplace new_active_context ∅ (aliases s)).1
              (modified s) (aliases_file s).

Definition get_active_context (s : AliasDict) : string := active_context s.

Definition add_alias (alias : string) (cmd : AliasDefinition) (s : AliasDict)
  : bool * AliasDict :=
  let '(context, m) := subscript (active_context s) (aliases s) in
  let '(context', inserted) := try_emplace alias cmd context in
  let s' := set_aliases (<[active_context s := context']> m) s in
  if inserted then (true, set_modified true s') else (false, s').

Definition exists_alias (alias : string) (s : AliasDict) : bool :=
  match aliases s !! active_context s with
  | Some context => bool_decide (is_Some (context !! alias))
  | None => false
  end.

Definition remove_alias (alias : string) (s : AliasDict) : bool * AliasDict :=
  let '(context, m) := subscript (active_context s) (aliases s) in
  let '(context', n) := erase alias context in
  let s' := set_aliases (<[active_context s := context']> m) s in
  if decide (0 < n)%nat then (true, set_modified true s') else (false, s').

Definition remove_context (context : string) (s : AliasDict)
  : bool * AliasDict :=
  let '(m, n) := erase context (aliases s) in
  if decide (0 < n)%nat then (true, set_modified true (set_aliases m s))
  else (false, set_aliases m s).

Definition get_alias (alias : string) (s : AliasDict)
  : option AliasDefinition :=
  match aliases s !! active_context s with
  | Some context => context !! alias
  | None => None
  end.

Definition clear (s : AliasDict) : AliasDict :=
  if decide (aliases s = ∅) then s
  else set_modified true (set_aliases ∅ s).

Section Traversal.

(** The traversal of an unordered map, from [begin()] to [end()]. *)
Variable enumerate : ∀ A : Type, gmap string A → list (string * A).
Hypothesis enumerate_perm :
  ∀ (A : Type) (m : gmap string A), enumerate A m ≡ₚ map_to_list m.

(** One turn of the loop of [remove_aliases_for_instance], at the binding
    [it]: erasing through the iterator leaves the order of the remaining
    bindings as it was, so the loop visits the bindings of the context as
    it stood before the loop, each of them once. *)
Definition remove_step (inst : string)
    (acc : AliasContext * bool * list string)
    (it : string * AliasDefinition) : AliasContext * bool * list string :=
  let '(context, dirty, removed_aliases) := acc in
  if decide (instance it.2 = inst)
  then (delete it.1 context, true, removed_aliases ++ [it.1])
  else (context, dirty, removed_aliases).

Definition remove_aliases_for_instance (inst : string) (s : AliasDict)
  : list string * AliasDict :=
  let '(context, m) := subscript (active_context s) (aliases s) in
  let '(context', dirty, removed_aliases) :=
    foldl (remove_step inst) (context, modified s, [])
          (enumerate _ context) in
  (removed_aliases,
   set_modified dirty (set_aliases (<[active_context s := context']> m) s)).

(** [sanitize_contexts], in its two stages: the names of the contexts to
    remove are collected first, and erased afterwards. *)
Definition empty_contexts_of (s : AliasDict) : list string :=
  (filter (λ context : string * AliasContext,
             context.1 ≠ active_context s ∧ context.2 = ∅)
          (enumerate _ (aliases s))).*1.

Definition sanitize_contexts (s : AliasDict) : AliasDict :=
  let empty_contexts := empty_contexts_of s in
  if decide (empty_contexts = []) then s
  else set_modified true
         (set_aliases
            (foldl (λ m context, (erase context m).1) (aliases s)
                   empty_contexts) s).

End Traversal.

(** ** Errors and the monad of functions that throw

    Every [throw] of the source raises a [std::runtime_error] built from a
    format string; a constructor stands for each format, with the text that
    is spliced into it. *)
Inductive runtime_error :=
| invalid_working_directory (dir : string)
    (* invalid working_directory string <dir> *)
| error_opening_file (file_name : string)
    (* Error opening file <file_name> *)
| cannot_remove_backup (backup_file_name : string)
    (* cannot remove old aliases backup file <backup_file_name> *)
| cannot_rename_config (backup_file_name : string)
    (* cannot rename aliases config to <backup_file_name> *)
| cannot_create_config (config_file_name : string)
    (* cannot create aliases config file <config_file_name> *)
| cannot_create_temp (config_file_name : string)
    (* raised by create_temp_file_with_path *)
| cannot_write_json (file_name : string).
    (* raised by write_json *)

Inductive result (A : Type) :=
| Ret (a : A)
| Throw (e : runtime_error).
Arguments Ret {A} a.
Arguments Throw {A} e.

(** A computation on a state [S] that returns or throws; the state it
    leaves behind is kept in both cases. *)
Definition M (S A : Type) : Type := S → result A * S.

Definition ret {S A : Type} (a : A) : M S A := λ s, (Ret a, s).
Definition throw {S A : Type} (e : runtime_error) : M S A :=
  λ s, (Throw e, s).
Definition bind {S A B : Type} (c : M S A) (k : A → M S B) : M S B :=
  λ s, match c s with
       | (Ret a, s') => k a s'
       | (Throw e, s') => (Throw e, s')
       end.
Definition lift {S A : Type} (r : result A) : M S A := λ s, (r, s).
Definition gets {S A : Type} (f : S → A) : M S A := λ s, (Ret (f s), s).

#[global] Instance M_ret (S : Type) : MRet (M S) := λ A, ret.
#[global] Instance M_bind (S : Type) : MBind (M S) := λ A B k c, bind c k.

(** The same for code without a state of its own. *)
Definition result_bind {A B : Type} (r : result A) (k : A → result B)
  : result B :=
  match r with
  | Ret a => k a
  | Throw e => Throw e
  end.

#[global] Instance result_ret : MRet result := λ A, Ret.
#[global] Instance result_mbind : MBind result := λ A B k r, result_bind r k.

(** A range-based [for] whose body may throw: the first exception leaves
    the loop. *)
Fixpoint for_each {S A : Type} (body : S → A → result S) (l : list A) (s : S)
  : result S :=
  match l with
  | [] => Ret s
  | x :: rest => result_bind (body s x) (for_each body rest)
  end.

(** ** JSON values, as far as the source looks at them

    The payload of a number is not read anywhere in the source. *)
#[local] Set Warnings "-register-all".
Inductive QJsonValue :=
| JNull
| JBool (b : bool)
| JDouble (d : Z)
| JString (s : string)
| JArray (a : list QJsonValue)
| JObject (o : list (string * QJsonValue))
| JUndefined.

Abbreviation QJsonObject := (list (string * QJsonValue)).

Definition isString (v : QJsonValue) : bool :=
  match v with JString _ => true | _ => false end.

(** [toString()] of anything but a string is the null string. *)
Definition toString (v : QJsonValue) : string :=
  match v with JString s => s | _ => "" end.

(** [toObject()] of anything but an object is the empty object. *)
Definition toObject (v : QJsonValue) : QJsonObject :=
  match v with JObject o => o | _ => [] end.

Definition obj_isEmpty (o : QJsonObject) : bool :=
  match o with [] => true | _ => false end.

Definition str_isEmpty (s : string) : bool :=
  match s with EmptyString => true | _ => false end.

(** [o.find(key)]: the value at the first pair with this key. *)
Fixpoint obj_find {A : Type} (key : string) (o : list (string * A))
  : option A :=
  match o with
  | [] => None
  | (k, v) :: rest => if decide (k = key) then Some v else obj_find key rest
  end.

Definition obj_contains (key : string) (o : QJsonObject) : bool :=
  match obj_find key o with Some _ => true | None => false end.

(** [o.value(key)]: [Undefined] when the key is absent. *)
Definition obj_value (key : string) (o : QJsonObject) : QJsonValue :=
  default JUndefined (obj_find key o).

Fixpoint obj_remove (key : string) (o : QJsonObject) : QJsonObject :=
  match o with
  | [] => []
  | (k, v) :: rest =>
      if decide (k = key) then rest else (k, v) :: obj_remove key rest
  end.

(** A [QJsonObject] keeps its pairs ordered by key: a new pair goes before
    the first greater key, and the value of an equal key is replaced. *)
Fixpoint obj_put {A : Type} (key : string) (v : A) (o : list (string * A))
  : list (string * A) :=
  match o with
  | [] => [(key, v)]
  | (k, x) :: rest =>
      match String.compare key k with
      | Eq => (key, v) :: rest
      | Lt => (key, v) :: (k, x) :: rest
      | Gt => (k, x) :: obj_put key v rest
      end
  end.

(** [o.insert(key, v)]; inserting [Undefined] removes the key. *)
Definition obj_insert (key : string) (v : QJsonValue) (o : QJsonObject)
  : QJsonObject :=
  match v with
  | JUndefined => obj_remove key o
  | _ => obj_put key v o
  end.

(** [o[key]] on an object that is not [const]: a reference to the value of
    [key], which is first bound to [Null] when it is absent.  The pair is
    the value referred to and the object after the call. *)
Definition obj_subscript (key : string) (o : QJsonObject)
  : QJsonValue * QJsonObject :=
  match obj_find key o with
  | Some v => (v, o)
  | None => (JNull, obj_insert key JNull o)
  end.

Inductive QJsonDocument :=
| DocNull
| DocArray (a : list QJsonValue)
| DocObject (o : QJsonObject).

Definition doc_isNull (doc : QJsonDocument) : bool :=
  match doc with DocNull => true | _ => false end.

(** [doc.object()]: the empty object when the document is an array. *)
Definition doc_object (doc : QJsonDocument) : QJsonObject :=
  match doc with DocObject o => o | _ => [] end.

(** ** Conversion between [std::string] and [QString]

    [QString::fromStdString] is [QString::fromUtf8] on the bytes of the
    string, and [toStdString] is [toUtf8]; the functions below follow the
    decoder and the encoder of Qt (qutfcodec, with the base traits).  A
    byte is a number below 256. *)
Definition bytes_of_string (s : string) : list N :=
  N_of_ascii <$> list_ascii_of_string s.

Definition string_of_bytes (l : list N) : string :=
  string_of_list_ascii (ascii_of_N <$> l).

Abbreviation QString := (list N).

Definition isContinuationByte (b : N) : bool := (N.land b 0xC0 =? 0x80)%N.

(** The number of bytes of the sequence that the first byte [b]
    announces. *)
Definition charsNeeded (b : N) : nat :=
  if (b <? 0x80)%N then 1
  else if (b <? 0xE0)%N then 2
  else if (b <? 0xF0)%N then 3
  else 4.

(** [uc <<= 6; uc |= b & 0x3f]. *)
Definition continuation (uc b : N) : N :=
  N.lor (N.shiftl uc 6) (N.land b 0x3F).

(** The checks on a decoded code point: it is not below the least code
    point of its length, not a surrogate, and not beyond the last code
    point. *)
Definition checked (min_uc uc : N) : option N :=
  if (uc <? min_uc)%N then None
  else if ((0xD800 <=? uc) && (uc <=? 0xDFFF))%N || (0x10FFFF <? uc)%N
  then None
  else Some uc.

(** [QUtf8Functions::fromUtf8] at the first byte [b], with [src] the
    bytes after it: the code point of the sequence that starts at [b], or
    [None] where the decoder reports an error or the end of the string. *)
Definition fromUtf8 (b : N) (src : list N) : option N :=
  if (b <? 0x80)%N then Some b
  else if (b <=? 0xC1)%N then None
  else if (b <? 0xE0)%N then
    match src with
    | b1 :: _ =>
        if isContinuationByte b1
        then checked 0x80 (continuation (N.land b 0x1F) b1)
        else None
    | _ => None
    end
  else if (b <? 0xF0)%N then
    match src with
    | b1 :: b2 :: _ =>
        if isContinuationByte b1 && isContinuationByte b2
        then checked 0x800
               (continuation (continuation (N.land b 0x0F) b1) b2)
        else None
    | _ => None
    end
  else if (b <? 0xF5)%N then
    match src with
    | b1 :: b2 :: b3 :: _ =>
        if isContinuationByte b1 && isContinuationByte b2
           && isContinuationByte b3
        then checked 0x10000
               (continuation
                  (continuation (continuation (N.land b 0x07) b1) b2) b3)
        else None
    | _ => None
    end
  else None.

(** [QUtf8::convertToUnicode]: a sequence that decodes gives its code
    point and is passed over; a byte at which the decoder fails gives the
    replacement character U+FFFD and is passed over alone. *)
Fixpoint convertToUnicode (src : list N) : QString :=
  match src with
  | [] => []
  | b :: src =>
      match fromUtf8 b src with
      | Some uc =>
          uc :: match charsNeeded b, src with
                | 2, _ :: rest => convertToUnicode rest
                | 3, _ :: _ :: rest => convertToUnicode rest
                | 4, _ :: _ :: _ :: rest => convertToUnicode rest
                | _, _ => convertToUnicode src
                end
      | None => 0xFFFD%N :: convertToUnicode src
      end
  end.

(** A byte order mark at the start of the bytes is skipped. *)
Definition skip_bom (src : list N) : list N :=
  match src with
  | b0 :: b1 :: b2 :: rest =>
      if ((b0 =? 0xEF) && (b1 =? 0xBB) && (b2 =? 0xBF))%N then rest else src
  | _ => src
  end.

Definition fromStdString (s : string) : QString :=
  convertToUnicode (skip_bom (bytes_of_string s)).

(** The UTF-8 sequence of a code point. *)
Definition toUtf8 (uc : N) : list N :=
  if (uc <? 0x80)%N then [uc]
  else if (uc <? 0x800)%N then
    [N.lor 0xC0 (N.shiftr uc 6); N.lor 0x80 (N.land uc 0x3F)]
  else if (uc <? 0x10000)%N then
    [N.lor 0xE0 (N.shiftr uc 12);
     N.lor 0x80 (N.land (N.shiftr uc 6) 0x3F);
     N.lor 0x80 (N.land uc 0x3F)]
  else
    [N.lor 0xF0 (N.shiftr uc 18);
     N.lor 0x80 (N.land (N.shiftr uc 12) 0x3F);
     N.lor 0x80 (N.land (N.shiftr uc 6) 0x3F);
     N.lor 0x80 (N.land uc 0x3F)].

Definition toStdString (q : QString) : string :=
  string_of_bytes (q ≫= toUtf8).

(** The entry in the JSON model of the [QString] that Qt makes of the
    [std::string] [s]. *)
Definition json_text (s : string) : string := toStdString (fromStdString s).

(** ** The codec *)

Definition check_working_directory_string (dir : string) : result unit :=
  if decide (dir ≠ "map" ∧ dir ≠ "default")
  then Throw (invalid_working_directory dir)
  else Ret tt.

(** The lambda [alias_to_json] of [to_json]. *)
Definition alias_to_json (alias : AliasDefinition) : result QJsonObject :=
  let json : QJsonObject := [] in
  check_working_directory_string (working_directory alias);;
  let json :=
    obj_insert "instance" (JString (json_text (instance alias))) json in
  let json :=
    obj_insert "command" (JString (json_text (command alias))) json in
  let json :=
    obj_insert "working-directory"
               (JString (json_text (working_directory alias))) json in
  Ret json.

(** The lambda [records_to_context] of [load_dict].  [record] is a copy
    that is not [const], so that [record[...]] is [obj_subscript]; the copy
    is dropped at the end of each turn. *)
Fixpoint records_to_context (records : QJsonObject) (context : AliasContext)
  : result AliasContext :=
  match records with
  | [] => Ret context
  | (alias, v) :: rest =>
      let record := toObject v in
      if obj_isEmpty record then Ret context (* break *)
      else
        let '(r, record) := obj_subscript "instance" record in
        let inst := toString r in
        let '(r, record) := obj_subscript "command" record in
        let cmd := toString r in
        let '(read_working_directory, record) :=
          obj_subscript "working-directory" record in
        let dir :=
          if isString read_working_directory
             && negb (str_isEmpty (toString read_working_directory))
          then toString read_working_directory
          else "default" in
        check_working_directory_string dir;;
        records_to_context rest
          (try_emplace alias (mkAliasDefinition inst cmd dir) context).1
  end.

(** The loop of [load_dict] over the contexts of a file in the new format;
    what was loaded before an exception stays in the map. *)
Fixpoint load_contexts (context_array : QJsonObject) (m : DictType)
  : result unit * DictType :=
  match context_array with
  | [] => (Ret tt, m)
  | (context_name, v) :: rest =>
      match records_to_context (toObject v) ∅ with
      | Throw e => (Throw e, m)
      | Ret context =>
          load_contexts rest (try_emplace context_name context m).1
      end
  end.

Definition assign_active_context (name : string) (s : AliasDict)
  : AliasDict :=
  mkAliasDict name (aliases s) (modified s) (aliases_file s).

(** [load_dict] from the point where the file has been read and parsed:
    [doc] is what [QJsonDocument::fromJson] made of the bytes of the file. *)
Definition load_document (doc : QJsonDocument) (s : AliasDict)
  : result unit * AliasDict :=
  if doc_isNull doc then (Ret tt, s)
  else
    let records := doc_object doc in
    if obj_isEmpty records then (Ret tt, s)
    else if obj_contains "active-context" records then
      let '(r, records) := obj_subscript "active-context" records in
      let s := assign_active_context (toString r) s in
      let '(r, records) := obj_subscript "contexts" records in
      let context_array := toObject r in
      let '(res, m) := load_contexts context_array (aliases s) in
      (res, set_aliases m s)
    else
      let s := assign_active_context "default" s in
      match records_to_context records ∅ with
      | Throw e => (Throw e, s)
      | Ret default_context =>
          (Ret tt,
           set_aliases
             (try_emplace (active_context s) default_context (aliases s)).1
             s)
      end.

(** ** The file system

    A file is represented by the document that [QJsonDocument::fromJson]
    makes of its bytes: [DocNull] for bytes that do not parse, those of an
    empty or half-written file among them, and [DocObject o] for the bytes
    that [QJsonDocument{o}.toJson()] produces. *)
Abbreviation Files := (gmap string QJsonDocument).

(** Modelled from the spec: multipass/file_ops.h, multipass/utils.h and
    multipass/json_writer.h are not part of the sources at hand.  The spec
    has opening, removing, renaming and writing a file fail or succeed;
    which calls fail is a matter of the machine, recorded here together
    with the name that the temporary file receives when it is opened. *)
Record FileOps := mkFileOps {
  open_fails : string → bool;
  remove_fails : string → bool;
  rename_fails : string → string → bool;
  write_fails : string → bool;
  create_temp_fails : string → bool;
  temp_file_name : string → string
}.

Definition fileops_exists (name : string) (files : Files) : bool :=
  bool_decide (is_Some (files !! name)).

(** Modelled from the spec: [MP_FILEOPS.open] of an existing file for
    reading. *)
Definition fileops_open_read (ops : FileOps) (name : string) (files : Files)
  : bool :=
  negb (open_fails ops name) && fileops_exists name files.

(** Modelled from the spec: [MP_FILEOPS.open] of a [QTemporaryFile], which
    creates a new, empty file under a name of its own in the directory of
    the template; it does not open a file that exists. *)
Definition fileops_open_temp (ops : FileOps) (template : string)
  : M Files bool :=
  λ files,
    let name := temp_file_name ops template in
    if open_fails ops name || bool_decide (is_Some (files !! name))
    then (Ret false, files)
    else (Ret true, <[name := DocNull]> files).

(** Modelled from the spec: [MP_FILEOPS.remove]. *)
Definition fileops_remove (ops : FileOps) (name : string) : M Files bool :=
  λ files,
    if remove_fails ops name || negb (bool_decide (is_Some (files !! name)))
    then (Ret false, files)
    else (Ret true, delete name files).

(** Modelled from the spec: [MP_FILEOPS.rename], that is [QFile::rename],
    which does not overwrite a file. *)
Definition fileops_rename (ops : FileOps) (old_name new_name : string)
  : M Files bool :=
  λ files,
    match files !! old_name with
    | Some data =>
        if rename_fails ops old_name new_name
           || bool_decide (is_Some (files !! new_name))
        then (Ret false, files)
        else (Ret true, <[new_name := data]> (delete old_name files))
    | None => (Ret false, files)
    end.

(** Modelled from the spec: [mpu::create_temp_file_with_path], which
    prepares a temporary file in the directory of the target (step 3 of
    save); no file exists before the temporary file is opened. *)
Definition create_temp_file_with_path (ops : FileOps) (template : string)
  : M Files string :=
  if create_temp_fails ops template
  then throw (cannot_create_temp template)
  else mret template.

(** Modelled from the spec: [mp::write_json], which writes the document
    fully into the file or raises (step 4 of save); a failed write leaves
    bytes that do not parse. *)
Definition write_json (ops : FileOps) (root : QJsonObject)
    (file_name : string) : M Files unit :=
  λ files,
    if write_fails ops file_name
    then (Throw (cannot_write_json file_name), <[file_name := DocNull]> files)
    else (Ret tt, <[file_name := DocObject root]> files).

Section Persistence.

Variable enumerate : ∀ A : Type, gmap string A → list (string * A).
Hypothesis enumerate_perm :
  ∀ (A : Type) (m : gmap string A), enumerate A m ≡ₚ map_to_list m.

Variable MP_FILEOPS : FileOps.

Definition context_to_json (context_contents : AliasContext)
  : result QJsonObject :=
  for_each
    (λ (context_json : QJsonObject) (alias : string * AliasDefinition),
       let alias_name := json_text alias.1 in
       alias_definition ← alias_to_json alias.2;
       Ret (obj_insert alias_name (JObject alias_definition) context_json))
    (enumerate _ context_contents) [].

Definition to_json (s : AliasDict) : result QJsonObject :=
  let dict_json : QJsonObject :=
    obj_insert "active-context" (JString (json_text (active_context s)))
               [] in
  all_contexts_json ←
    for_each
      (λ (all_contexts_json : QJsonObject) (context : string * AliasContext),
         let context_name := json_text context.1 in
         context_json ← context_to_json context.2;
         Ret (obj_insert context_name (JObject context_json)
                         all_contexts_json))
      (enumerate _ (aliases s)) [];
  Ret (obj_insert "contexts" (JObject all_contexts_json) dict_json).

(** [load_dict]: the registry after the call, and whether it threw.  The
    call reads the file system and does not change it. *)
Definition load_dict (files : Files) (s : AliasDict)
  : result unit * AliasDict :=
  let db_file := aliases_file s in
  let s := set_aliases ∅ s in
  match files !! db_file with
  | Some data =>
      if negb (fileops_open_read MP_FILEOPS db_file files)
      then (Throw (error_opening_file db_file), s)
      else load_document data s
  | None => (Ret tt, s)
  end.

(** The constructor, given the path that it computes for the file: the
    members start out default-constructed, and [load_dict] runs. *)
Definition constructor (file : string) (files : Files)
  : result unit * AliasDict :=
  load_dict files (mkAliasDict "" ∅ false file).

(** [save_dict]: the registry after the call, whether the call threw,
    and the file system after it. *)
Definition save_dict (s : AliasDict) (files : Files)
  : AliasDict * (result unit * Files) :=
  let s := sanitize_contexts enumerate s in
  let config_file_name := aliases_file s in
  let body : M Files unit :=
    dict_json ← lift (to_json s);
    temp_file ← create_temp_file_with_path MP_FILEOPS config_file_name;
    opened ← fileops_open_temp MP_FILEOPS temp_file;
    if opened : bool then
      let temp_file_name := temp_file_name MP_FILEOPS temp_file in
      write_json MP_FILEOPS dict_json temp_file_name;;
      config_exists ← gets (fileops_exists config_file_name);
      (if config_exists : bool then
         let backup_file_name := config_file_name +:+ ".bak" in
         backup_exists ← gets (fileops_exists backup_file_name);
         not_removed ← (if backup_exists : bool
                        then removed ← fileops_remove MP_FILEOPS
                                                      backup_file_name;
                             mret (negb removed)
                        else mret false);
         (if not_removed : bool
          then throw (cannot_remove_backup backup_file_name)
          else mret tt);;
         renamed ← fileops_rename MP_FILEOPS config_file_name
                                  backup_file_name;
         if negb renamed
         then throw (cannot_rename_config backup_file_name)
         else mret tt
       else mret tt);;
      renamed ← fileops_rename MP_FILEOPS temp_file_name config_file_name;
      if negb renamed
      then throw (cannot_create_config config_file_name)
      else mret tt
    else mret tt in
  (s, body files).

(** The destructor: a save that throws is reported on [cerr], modelled
    as the list of the errors reported. *)
Definition destructor (s : AliasDict) (files : Files)
    (cerr : list runtime_error) : Files * list runtime_error :=
  if modified s then
    match save_dict s files with
    | (_, (Ret _, files')) => (files', cerr)
    | (_, (Throw e, files')) => (files', cerr ++ [e])
    end
  else (files, cerr).

End Persistence.

(** ** Notions used to state the properties *)

Definition valid_working_directory (dir : string) : Prop :=
  dir = "map" ∨ dir = "default".

#[global] Instance valid_working_directory_dec (dir : string)
  : Decision (valid_working_directory dir).
Proof. unfold valid_working_directory. apply _. Defined.

(** All the definitions of a map of contexts carry a valid literal. *)
Definition all_valid (m : DictType) : Prop :=
  map_Forall
    (λ (_ : string) (context : AliasContext),
       map_Forall
         (λ (_ : string) d, valid_working_directory (working_directory d))
         context)
    m.

#[global] Instance all_valid_dec (m : DictType) : Decision (all_valid m).
Proof. unfold all_valid. apply _. Defined.

(** The conversion to [QString] and back leaves the string as it is. *)
Definition lossless (s : string) : Prop := json_text s = s.

#[global] Instance lossless_dec (s : string) : Decision (lossless s).
Proof. unfold lossless. apply _. Defined.

(** Every byte of the string is below 128. *)
Definition is_ascii (s : string) : Prop :=
  Forall (λ c, (N_of_ascii c < 0x80)%N) (list_ascii_of_string s).

(** All the strings of a registry that [to_json] converts, the working
    directories apart, are left as they are by the conversion. *)
Definition all_lossless (s : AliasDict) : Prop :=
  lossless (active_context s) ∧
  map_Forall
    (λ (c : string) (context : AliasContext),
       lossless c ∧
       map_Forall
         (λ (a : string) d,
            lossless a ∧ lossless (instance d) ∧ lossless (command d))
         context)
    (aliases s).

(** The aliases of a context come back from the JSON that [to_json]
    builds for them: valid working directories, and names, instances and
    commands that the conversion leaves as they are. *)
Definition faithful_context (context : AliasContext) : Prop :=
  ∀ a d, context !! a = Some d →
         valid_working_directory (working_directory d) ∧
         lossless a ∧ lossless (instance d) ∧ lossless (command d).

#[global] Instance all_lossless_dec (s : AliasDict)
  : Decision (all_lossless s).
Proof. unfold all_lossless. apply _. Defined.

(** [(c, a, d)] is one of the (context, alias, definition) triples of the
    registry. *)
Definition has_triple (s : AliasDict) (c a : string) (d : AliasDefinition)
  : Prop :=
  ∃ context, aliases s !! c = Some context ∧ context !! a = Some d.

(** What [records_to_context] reads from one record that is not empty: the
    three strings, the last one replaced by the default where the record
    has no string or an empty string for it. *)
Definition read_working_directory (record : QJsonObject) : string :=
  let v := obj_value "working-directory" record in
  if isString v && negb (str_isEmpty (toString v))
  then toString v else "default".

Definition record_to_definition (v : QJsonValue) : AliasDefinition :=
  let record := toObject v in
  mkAliasDefinition (toString (obj_value "instance" record))
                    (toString (obj_value "command" record))
                    (read_working_directory record).

(** The entries that [records_to_context] reaches: those before the first
    record that is empty. *)
Fixpoint parsed_entries (records : QJsonObject)
  : list (string * AliasDefinition) :=
  match records with
  | [] => []
  | (alias, v) :: rest =>
      if obj_isEmpty (toObject v) then []
      else (alias, record_to_definition v) :: parsed_entries rest
  end.

(** The JSON object that [alias_to_json] builds when it does not throw. *)
Definition definition_json (d : AliasDefinition) : QJsonObject :=
  obj_insert "working-directory" (JString (json_text (working_directory d)))
    (obj_insert "command" (JString (json_text (command d)))
       (obj_insert "instance" (JString (json_text (instance d))) [])).

(** The names that the loop of [remove_aliases_for_instance] collects on
    the traversal [l]. *)
Definition matching (inst : string) (l : list (string * AliasDefinition))
  : list string :=
  (filter (λ it : string * AliasDefinition, instance it.2 = inst) l).*1.

(** [s'] is [s] with an empty context bound to the name of the active
    context, and nothing else changed. *)
Definition adds_empty_active_context (s s' : AliasDict) : Prop :=
  aliases s' !! active_context s = Some ∅ ∧
  (∀ c, c ≠ active_context s → aliases s' !! c = aliases s !! c) ∧
  modified s' = modified s ∧
  active_context s' = active_context s ∧
  aliases_file s' = aliases_file s.

(** The error that [check_working_directory_string] raises. *)
Definition invalid_directory_error (e : runtime_error) : Prop :=
  ∃ dir, e = invalid_working_directory dir ∧ ¬ valid_working_directory dir.

(** Emplacing the pairs of a list one after the other: a key keeps the
    value of its first pair. *)
Definition emplace_all {A : Type} (l : list (string * A)) (m : gmap string A)
  : gmap string A :=
  foldl (λ m p, (try_emplace p.1 p.2 m).1) m l.

(** Putting the pairs of a list one after the other into an object. *)
Definition put_all {A : Type} (l : list (string * A)) : list (string * A) :=
  foldl (λ o p, obj_put p.1 p.2 o) [] l.

(** The JSON that [to_json] builds for an alias, for a context and for a
    named context when no working directory is invalid. *)
Definition encode_alias : string * AliasDefinition → string * QJsonValue :=
  prod_map id (λ d, JObject (definition_json d)).

Definition context_json
    (enumerate : ∀ A : Type, gmap string A → list (string * A))
    (context : AliasContext) : QJsonObject :=
  encode_alias <$> put_all (prod_map json_text id <$> enumerate _ context).

Definition encode_context
    (enumerate : ∀ A : Type, gmap string A → list (string * A))
  : string * AliasContext → string * QJsonValue :=
  prod_map id (λ context, JObject (context_json enumerate context)).

Definition dict_json
    (enumerate : ∀ A : Type, gmap string A → list (string * A))
    (s : AliasDict) : QJsonObject :=
  [("active-context", JString (json_text (active_context s)));
   ("contexts",
    JObject (encode_context enumerate
               <$> put_all (prod_map json_text id
                              <$> enumerate _ (aliases s))))].

(** A traversal that is at hand for concrete runs. *)
Definition map_order : ∀ A : Type, gmap string A → list (string * A) :=
  λ A, map_to_list.

(** A machine on which the temporary file cannot be opened, and nothing
    else fails. *)
Definition unopenable : FileOps :=
  mkFileOps (λ name, bool_decide (name = "aliases.json.XXXXXX"))
            (λ _, false) (λ _ _, false) (λ _, false)
            (λ _, false) (λ template, template +:+ ".XXXXXX").

(** A machine on which no file operation fails. *)
Definition reliable : FileOps :=
  mkFileOps (λ _, false) (λ _, false) (λ _ _, false) (λ _, false)
            (λ _, false) (λ template, template +:+ ".XXXXXX").

(** Sample data for concrete runs. *)
Definition ll_definition : AliasDefinition :=
  mkAliasDefinition "vm1" "ls -la" "map".
Definition pw_definition : AliasDefinition :=
  mkAliasDefinition "vm2" "pwd" "default".
Definition fresh_registry : AliasDict :=
  mkAliasDict "work" ∅ false "aliases.json".
(** The registry as the constructor has it when it calls [load_dict]. *)
Definition initial_registry : AliasDict :=
  mkAliasDict "" ∅ false "aliases.json".
Definition dirty_registry : AliasDict :=
  mkAliasDict "work" {[ "work" := {[ "ll" := ll_definition ]} ]} true
              "aliases.json".
Definition bogus_definition : AliasDefinition :=
  mkAliasDefinition "vm1" "ls" "bogus".
Definition bogus_registry : AliasDict :=
  mkAliasDict "work" {[ "work" := {[ "ll" := bogus_definition ]} ]} true
              "aliases.json".
(** A file system that holds an earlier version of the file. *)
Definition old_files : Files :=
  {[ "aliases.json" :=
       DocObject [("active-context", JString "work");
                  ("contexts", JObject [("work", JObject [])])] ]}.
(** Two alias names that are not UTF-8, the bytes 255 and 254, and a name
    that starts with a byte order mark. *)
Definition replacement_name : string :=
  string_of_bytes [0xEF; 0xBF; 0xBD]%N.
Definition name_255 : string := string_of_bytes [255%N].
Definition name_254 : string := string_of_bytes [254%N].
Definition name_bom_ll : string :=
  string_of_bytes [0xEF; 0xBB; 0xBF; 0x6C; 0x6C]%N.
Definition bytes_registry : AliasDict :=
  mkAliasDict "work"
    {[ "work" := {[ name_255 := ll_definition; name_254 := pw_definition ]} ]}
    true "aliases.json".
Definition bom_registry : AliasDict :=
  mkAliasDict "work" {[ "work" := {[ name_bom_ll := ll_definition ]} ]}
    true "aliases.json".
(** The legacy file of the spec, and one of its entries cut short by an
    empty record. *)
Definition legacy_records : QJsonObject :=
  [("x", JObject [("command", JString "ls"); ("instance", JString "vm1")])].
Definition broken_records : QJsonObject :=
  [("a", JObject [("instance", JString "vm1")]);
   ("b", JObject []);
   ("c", JObject [("instance", JString "vm2")])].
Definition work_registry : AliasDict :=
  mkAliasDict "work"
    {[ "work" := {[ "ll" := ll_definition; "pw" := pw_definition ]};
       "home" := {[ "top" := mkAliasDefinition "vm1" "top" "default" ]};
       "old" := ∅ ]}
    false "aliases.json".

(** ** The container interface of the header

    [empty()] and [size()] of alias_dict.h forward to the map of contexts:
    they count contexts, not aliases. *)
Module Container.

Definition empty (s : AliasDict) : bool := bool_decide (aliases s = ∅).

Definition size (s : AliasDict) : nat := base.size (aliases s).

End Container.

(** More sample data: machines on which one file operation fails, and a
    file system that holds a backup already. *)
Definition no_remove : FileOps :=
  mkFileOps (λ _, false) (λ _, true) (λ _ _, false) (λ _, false)
            (λ _, false) (λ template, template +:+ ".XXXXXX").
Definition no_rename_to_backup : FileOps :=
  mkFileOps (λ _, false) (λ _, false)
            (λ old_name _, bool_decide (old_name = "aliases.json"))
            (λ _, false) (λ _, false) (λ template, template +:+ ".XXXXXX").
Definition no_rename_to_target : FileOps :=
  mkFileOps (λ _, false) (λ _, false)
            (λ _ new_name, bool_decide (new_name = "aliases.json"))
            (λ _, false) (λ _, false) (λ template, template +:+ ".XXXXXX").
Definition unreadable : FileOps :=
  mkFileOps (λ name, bool_decide (name = "aliases.json"))
            (λ _, false) (λ _ _, false) (λ _, false)
            (λ _, false) (λ template, template +:+ ".XXXXXX").
(** A file in the new format whose one context is cut short by an empty
    record. *)
Definition new_format_records : QJsonObject :=
  [("active-context", JString "work");
   ("contexts", JObject [("work", JObject broken_records)])].
Definition new_format_files : Files :=
  {[ "aliases.json" := DocObject new_format_records ]}.
Definition backed_up_files : Files :=
  {[ "aliases.json" :=
       DocObject [("active-context", JString "work");
                  ("contexts", JObject [("work", JObject [])])];
     "aliases.json.bak" := DocNull ]}.

(** ** Properties of the registry operations *)

Lemma subscript_lookup (k : string) (m : DictType) :
  subscript k m = (default ∅ (m !! k), <[k := default ∅ (m !! k)]> m).
Proof.
  unfold subscript. destruct (m !! k) as [c|] eqn:E; simpl; [|done].
  by rewrite insert_id.
Qed.

Lemma exists_alias_false (a : string) (s : AliasDict) :
  exists_alias a s = false ↔
  default ∅ (aliases s !! active_context s) !! a = None.
Proof.
  unfold exists_alias. destruct (aliases s !! active_context s) as [c|]; simpl.
  - rewrite bool_decide_eq_false, <- eq_None_not_Some. done.
  - by rewrite lookup_empty.
Qed.

Lemma add_alias_fresh (a : string) (d : AliasDefinition) (s : AliasDict) :
  exists_alias a s = false →
  add_alias a d s =
    (true,
     set_modified true
       (set_aliases
          (<[active_context s :=
               <[a := d]> (default ∅ (aliases s !! active_context s))]>
             (aliases s)) s)).
Proof.
  intros H%exists_alias_false. unfold add_alias.
  rewrite subscript_lookup. unfold try_emplace. rewrite H.
  by rewrite insert_insert_eq.
Qed.

Lemma add_alias_present (a : string) (d d' : AliasDefinition) (s : AliasDict) :
  get_alias a s = Some d → add_alias a d' s = (false, s).
Proof.
  unfold get_alias, add_alias. intros H.
  destruct (aliases s !! active_context s) as [c|] eqn:E; [|done].
  rewrite subscript_lookup, E. simpl. unfold try_emplace. rewrite H.
  rewrite insert_insert_eq, insert_id by done. by destruct s.
Qed.

(** C8.  When the alias [a] is not in the active context, [add_alias a d]
    returns true and [get_alias a] then returns [d]; adding [a] again, with
    any definition [d'], returns false and leaves the registry, and so the
    definition stored under [a], as the first call left it. *)
Theorem add_alias_then_get_alias
    (a : string) (d d' : AliasDefinition) (s : AliasDict) :
  exists_alias a s = false →
  (add_alias a d s).1 = true ∧
  get_alias a (add_alias a d s).2 = Some d ∧
  (add_alias a d' (add_alias a d s).2).1 = false ∧
  (add_alias a d' (add_alias a d s).2).2 = (add_alias a d s).2 ∧
  get_alias a (add_alias a d' (add_alias a d s).2).2 = Some d.
Proof.
  intros H. rewrite (add_alias_fresh _ _ _ H). simpl.
  assert (G : get_alias a
    (set_modified true
       (set_aliases
          (<[active_context s :=
               <[a := d]> (default ∅ (aliases s !! active_context s))]>
             (aliases s)) s)) = Some d).
  { unfold get_alias. simpl. rewrite lookup_insert_eq.
    by rewrite lookup_insert_eq. }
  rewrite (add_alias_present _ _ d' _ G). simpl. done.
Qed.

Lemma add_alias_then_get_alias_witness :
  exists_alias "ll" fresh_registry = false ∧
  (add_alias "ll" ll_definition fresh_registry).1 = true ∧
  get_alias "ll" (add_alias "ll" ll_definition fresh_registry).2
    = Some ll_definition ∧
  (add_alias "ll" pw_definition
     (add_alias "ll" ll_definition fresh_registry).2).1 = false ∧
  (add_alias "ll" pw_definition
     (add_alias "ll" ll_definition fresh_registry).2).2
    = (add_alias "ll" ll_definition fresh_registry).2 ∧
  get_alias "ll"
    (add_alias "ll" pw_definition
       (add_alias "ll" ll_definition fresh_registry).2).2
    = Some ll_definition.
Proof.
  split; [reflexivity|].
  apply (add_alias_then_get_alias "ll" ll_definition pw_definition
           fresh_registry).
  reflexivity.
Defined.

Lemma map_order_perm (A : Type) (m : gmap string A) :
  map_order A m ≡ₚ map_to_list m.
Proof. reflexivity. Defined.

Section TraversalFacts.

Variable enumerate : ∀ A : Type, gmap string A → list (string * A).
Hypothesis enumerate_perm :
  ∀ (A : Type) (m : gmap string A), enumerate A m ≡ₚ map_to_list m.

Lemma elem_of_enumerate {A : Type} (m : gmap string A) (k : string) (x : A) :
  (k, x) ∈ enumerate A m ↔ m !! k = Some x.
Proof. by rewrite enumerate_perm, elem_of_map_to_list. Qed.

Lemma NoDup_fst_enumerate {A : Type} (m : gmap string A) :
  NoDup (enumerate A m).*1.
Proof. rewrite enumerate_perm. apply NoDup_fst_map_to_list. Qed.

Lemma enumerate_empty (A : Type) : enumerate A ∅ = [].
Proof.
  apply Permutation_nil_r. rewrite enumerate_perm.
  by rewrite map_to_list_empty.
Qed.

Lemma matching_cons (inst a : string) (d : AliasDefinition)
    (l : list (string * AliasDefinition)) :
  matching inst ((a, d) :: l) =
    if decide (instance d = inst) then a :: matching inst l
    else matching inst l.
Proof.
  unfold matching. rewrite filter_cons. simpl. by destruct (decide _).
Qed.

Lemma remove_loop (inst : string) (l : list (string * AliasDefinition)) :
  ∀ (context : AliasContext) (dirty : bool) (removed : list string),
    ∃ context',
      foldl (remove_step inst) (context, dirty, removed) l =
        (context',
         dirty || bool_decide (matching inst l ≠ []),
         removed ++ matching inst l) ∧
      ∀ k, context' !! k =
           if decide (k ∈ matching inst l) then None else context !! k.
Proof.
  induction l as [|[a d] l IH]; intros context dirty removed.
  - exists context. simpl. rewrite orb_false_r, app_nil_r. done.
  - cbn [foldl]. rewrite matching_cons. unfold remove_step at 2. simpl.
    destruct (decide (instance d = inst)) as [E|E].
    + destruct (IH (delete a context) true (removed ++ [a]))
        as (c' & -> & Hc').
      exists c'. split.
      * rewrite orb_true_r. simpl. by rewrite <- app_assoc.
      * intros k. rewrite Hc'.
        destruct (decide (k = a)) as [->|Hk].
        -- rewrite (decide_True (P := a ∈ a :: _)) by left.
           rewrite lookup_delete_eq. by destruct (decide _).
        -- rewrite lookup_delete_ne by done.
           destruct (decide (k ∈ matching inst l)) as [Hin|Hin].
           ++ by rewrite decide_True by by right.
           ++ rewrite decide_False; [done|].
              intros [?|?]%elem_of_cons; done.
    + destruct (IH context dirty removed) as (c' & -> & Hc').
      exists c'. done.
Qed.

Lemma elem_of_matching (inst : string) (context : AliasContext) (k : string) :
  k ∈ matching inst (enumerate _ context) ↔
  ∃ d, context !! k = Some d ∧ instance d = inst.
Proof.
  unfold matching. rewrite list_elem_of_fmap. split.
  - intros ([a d] & -> & [Hi Hin]%list_elem_of_filter).
    apply elem_of_enumerate in Hin. by exists d.
  - intros (d & Hd & Hi). exists (k, d). split; [done|].
    apply list_elem_of_filter. split; [done|]. by apply elem_of_enumerate.
Qed.

Lemma remove_aliases_for_instance_eq (inst : string) (s : AliasDict) :
  remove_aliases_for_instance enumerate inst s =
    (matching inst
       (enumerate _ (default ∅ (aliases s !! active_context s))),
     mkAliasDict (active_context s)
       (<[active_context s :=
            filter (λ it : string * AliasDefinition, instance it.2 ≠ inst)
                   (default ∅ (aliases s !! active_context s))]>
          (aliases s))
       (modified s
        || bool_decide
             (matching inst
                (enumerate _ (default ∅ (aliases s !! active_context s)))
              ≠ []))
       (aliases_file s)).
Proof.
  unfold remove_aliases_for_instance. rewrite subscript_lookup.
  set (context := default ∅ (aliases s !! active_context s)).
  destruct (remove_loop inst (enumerate _ context) context (modified s) [])
    as (c' & -> & Hc').
  simpl. f_equal. unfold set_modified, set_aliases. simpl.
  f_equal. rewrite insert_insert_eq. f_equal.
  apply map_eq. intros k. rewrite Hc', map_lookup_filter.
  destruct (decide (k ∈ _)) as [Hin|Hin].
  - apply elem_of_matching in Hin as (d & -> & Hd). simpl.
    by rewrite option_guard_False by (simpl; tauto).
  - destruct (context !! k) as [d|] eqn:Hk; simpl; [|done].
    rewrite option_guard_True; [done|]. simpl. intros Hd.
    apply Hin, elem_of_matching. eauto.
Qed.

(** C5.  [remove_aliases_for_instance i] returns the names of the aliases
    of the active context whose instance is [i], in the order in which
    the traversal of that context meets them and each of them once;
    afterwards the active context holds the other aliases, each with the
    definition it had, every other context is as it was, and the dirty
    flag is set when a name was removed and otherwise keeps its value. *)
Theorem remove_aliases_for_instance_exact (i : string) (s : AliasDict) :
  (remove_aliases_for_instance enumerate i s).1 =
    matching i (enumerate _ (default ∅ (aliases s !! active_context s))) ∧
  NoDup (remove_aliases_for_instance enumerate i s).1 ∧
  (∀ a, a ∈ (remove_aliases_for_instance enumerate i s).1 ↔
        ∃ d, get_alias a s = Some d ∧ instance d = i) ∧
  (∀ a, get_alias a (remove_aliases_for_instance enumerate i s).2 =
        match get_alias a s with
        | Some d => if decide (instance d = i) then None else Some d
        | None => None
        end) ∧
  (∀ c, c ≠ active_context s →
        aliases (remove_aliases_for_instance enumerate i s).2 !! c =
        aliases s !! c) ∧
  active_context (remove_aliases_for_instance enumerate i s).2 =
    active_context s ∧
  modified (remove_aliases_for_instance enumerate i s).2 =
    modified s
    || bool_decide ((remove_aliases_for_instance enumerate i s).1 ≠ []).
Proof.
  rewrite remove_aliases_for_instance_eq. simpl.
  assert (G : ∀ a, get_alias a s =
                   default ∅ (aliases s !! active_context s) !! a).
  { intros a. unfold get_alias.
    destruct (aliases s !! active_context s); simpl; [done|].
    by rewrite lookup_empty. }
  split_and!; try done.
  - unfold matching.
    eapply sublist_NoDup; [|apply fmap_sublist, sublist_filter].
    apply NoDup_fst_enumerate.
  - intros a. rewrite elem_of_matching, G. done.
  - intros a. unfold get_alias at 1. simpl. rewrite lookup_insert_eq.
    rewrite map_lookup_filter, G.
    destruct (default ∅ (aliases s !! active_context s) !! a) as [d|];
      simpl; [|done].
    destruct (decide (instance d = i)) as [E|E].
    + by rewrite option_guard_False by (simpl; tauto).
    + by rewrite option_guard_True.
  - intros c Hc. by rewrite lookup_insert_ne.
Qed.

(** C10.  When no context is bound to the name of the active context,
    [remove_alias] returns false and [remove_aliases_for_instance]
    returns no name, and each of them leaves a registry in which an
    empty context is bound to that name, the other contexts and the
    dirty flag being as they were. *)
Theorem remove_without_active_context (a i : string) (s : AliasDict) :
  aliases s !! active_context s = None →
  (remove_alias a s).1 = false ∧
  adds_empty_active_context s (remove_alias a s).2 ∧
  (remove_aliases_for_instance enumerate i s).1 = [] ∧
  adds_empty_active_context s (remove_aliases_for_instance enumerate i s).2 ∧
  (remove_alias a s).2 =
    set_aliases (<[active_context s := ∅]> (aliases s)) s ∧
  (remove_aliases_for_instance enumerate i s).2 =
    set_aliases (<[active_context s := ∅]> (aliases s)) s.
Proof.
  intros H.
  assert (A : adds_empty_active_context s
                (set_aliases (<[active_context s := ∅]> (aliases s)) s)).
  { unfold adds_empty_active_context. simpl.
    rewrite lookup_insert_eq. split_and!; try done.
    intros c Hc. by rewrite lookup_insert_ne. }
  assert (R : remove_alias a s =
              (false, set_aliases (<[active_context s := ∅]> (aliases s)) s)).
  { unfold remove_alias, subscript, erase. rewrite H, lookup_empty. simpl.
    by rewrite insert_insert_eq. }
  assert (I : remove_aliases_for_instance enumerate i s =
              ([], set_aliases (<[active_context s := ∅]> (aliases s)) s)).
  { rewrite remove_aliases_for_instance_eq, H. simpl.
    rewrite enumerate_empty. unfold matching. simpl.
    rewrite map_filter_empty, orb_false_r. by destruct s. }
  rewrite R, I. simpl. done.
Qed.

End TraversalFacts.

(** ** Sanitizing before a save *)

Lemma erase_delete {A : Type} (k : string) (m : gmap string A) :
  (erase k m).1 = delete k m.
Proof.
  unfold erase. destruct (m !! k) eqn:E; simpl; [done|].
  by rewrite delete_id.
Qed.

Lemma lookup_erase_all {A : Type} (names : list string) :
  ∀ (m : gmap string A) (k : string),
    foldl (λ m c, (erase c m).1) m names !! k =
      if decide (k ∈ names) then None else m !! k.
Proof.
  induction names as [|c names IH]; intros m k.
  - destruct (decide (k ∈ [])) as [Hk|]; [|done].
    by apply not_elem_of_nil in Hk.
  - cbn [foldl]. rewrite IH, erase_delete.
    destruct (decide (k ∈ names)) as [Hin|Hin].
    + by rewrite decide_True by by right.
    + destruct (decide (k = c)) as [->|Hk].
      * rewrite lookup_delete_eq. by rewrite decide_True by left.
      * rewrite lookup_delete_ne by done. rewrite decide_False; [done|].
        intros [?|?]%elem_of_cons; done.
Qed.

Section SanitizeFacts.

Variable enumerate : ∀ A : Type, gmap string A → list (string * A).
Hypothesis enumerate_perm :
  ∀ (A : Type) (m : gmap string A), enumerate A m ≡ₚ map_to_list m.
Variable MP_FILEOPS : FileOps.

Lemma elem_of_empty_contexts (s : AliasDict) (c : string) :
  c ∈ empty_contexts_of enumerate s ↔
  c ≠ active_context s ∧ aliases s !! c = Some ∅.
Proof.
  unfold empty_contexts_of. rewrite list_elem_of_fmap. split.
  - intros ([c' context] & -> & [[H1 H2] Hin]%list_elem_of_filter).
    simpl in *. subst context.
    by apply (elem_of_enumerate enumerate enumerate_perm) in Hin.
  - intros [H1 H2]. exists (c, ∅). split; [done|].
    apply list_elem_of_filter. split; [done|].
    by apply (elem_of_enumerate enumerate enumerate_perm).
Qed.

Lemma empty_contexts_nonempty (s : AliasDict) :
  empty_contexts_of enumerate s ≠ [] ↔
  ∃ c, c ≠ active_context s ∧ aliases s !! c = Some ∅.
Proof.
  split.
  - destruct (empty_contexts_of enumerate s) as [|c l] eqn:E; [done|].
    intros _. exists c. apply elem_of_empty_contexts. rewrite E. left.
  - intros (c & Hc%elem_of_empty_contexts) E. rewrite E in Hc.
    by apply not_elem_of_nil in Hc.
Qed.

Lemma lookup_sanitize_contexts (s : AliasDict) (c : string) :
  aliases (sanitize_contexts enumerate s) !! c =
    match aliases s !! c with
    | Some context =>
        if decide (c ≠ active_context s ∧ context = ∅) then None
        else Some context
    | None => None
    end.
Proof.
  unfold sanitize_contexts.
  destruct (decide (empty_contexts_of enumerate s = [])) as [E|E].
  - destruct (aliases s !! c) as [context|] eqn:Hc; [|done].
    case_decide as H; [|done]. destruct H as [H1 ->].
    assert (Hin : c ∈ empty_contexts_of enumerate s)
      by by apply elem_of_empty_contexts.
    rewrite E in Hin. by apply not_elem_of_nil in Hin.
  - simpl. rewrite lookup_erase_all.
    destruct (decide (c ∈ empty_contexts_of enumerate s)) as [Hin|Hin].
    + apply elem_of_empty_contexts in Hin as [H1 ->].
      by rewrite decide_True.
    + destruct (aliases s !! c) as [context|] eqn:Hc; [|done].
      case_decide as H; [|done]. destruct H as [H1 ->].
      destruct Hin. by apply elem_of_empty_contexts.
Qed.

(** C6.  [save_dict] starts by sanitizing, whatever happens afterwards:
    the registry it leaves is the sanitized one.  Sanitizing removes the
    contexts that are empty and not active and keeps every other
    context, the active one among them even when it is empty; the dirty
    flag is set when a context was removed and otherwise keeps its
    value. *)
Theorem sanitize_before_save (s : AliasDict) (files : Files) :
  (save_dict enumerate MP_FILEOPS s files).1 =
    sanitize_contexts enumerate s ∧
  (∀ c, c ≠ active_context s → aliases s !! c = Some ∅ →
        aliases (sanitize_contexts enumerate s) !! c = None) ∧
  (∀ c context, aliases s !! c = Some context → context ≠ ∅ →
        aliases (sanitize_contexts enumerate s) !! c = Some context) ∧
  aliases (sanitize_contexts enumerate s) !! active_context s =
    aliases s !! active_context s ∧
  (∀ c, aliases s !! c = None →
        aliases (sanitize_contexts enumerate s) !! c = None) ∧
  active_context (sanitize_contexts enumerate s) = active_context s ∧
  (modified (sanitize_contexts enumerate s) = true ↔
   modified s = true ∨
   ∃ c, c ≠ active_context s ∧ aliases s !! c = Some ∅) ∧
  ((¬ ∃ c, c ≠ active_context s ∧ aliases s !! c = Some ∅) →
   sanitize_contexts enumerate s = s).
Proof.
  split_and!.
  - done.
  - intros c H1 H2. rewrite lookup_sanitize_contexts, H2.
    by rewrite decide_True.
  - intros c context H1 H2. rewrite lookup_sanitize_contexts, H1.
    rewrite decide_False; [done|]. tauto.
  - rewrite lookup_sanitize_contexts.
    destruct (aliases s !! active_context s); [|done].
    rewrite decide_False; [done|]. tauto.
  - intros c H. by rewrite lookup_sanitize_contexts, H.
  - unfold sanitize_contexts. by destruct (decide _).
  - rewrite <- empty_contexts_nonempty. unfold sanitize_contexts.
    destruct (decide (empty_contexts_of enumerate s = [])) as [E|E]; simpl.
    + tauto.
    + split; [by right|done].
  - rewrite <- empty_contexts_nonempty. unfold sanitize_contexts.
    destruct (decide (empty_contexts_of enumerate s = [])) as [E|E];
      [done|tauto].
Qed.

End SanitizeFacts.

Lemma sanitize_before_save_witness :
  (∀ (A : Type) (m : gmap string A), map_order A m ≡ₚ map_to_list m) ∧
  (save_dict map_order reliable work_registry ∅).1 =
    sanitize_contexts map_order work_registry.
Proof.
  split; [exact map_order_perm|].
  exact (proj1 (sanitize_before_save map_order map_order_perm reliable
                  work_registry ∅)).
Defined.

Lemma remove_aliases_for_instance_exact_witness :
  (∀ (A : Type) (m : gmap string A), map_order A m ≡ₚ map_to_list m) ∧
  (remove_aliases_for_instance map_order "vm1" work_registry).1 =
    matching "vm1"
      (map_order _
         (default ∅ (aliases work_registry !! active_context work_registry))).
Proof.
  split; [exact map_order_perm|].
  exact (proj1 (remove_aliases_for_instance_exact map_order map_order_perm
                  "vm1" work_registry)).
Defined.

Lemma remove_without_active_context_witness :
  (∀ (A : Type) (m : gmap string A), map_order A m ≡ₚ map_to_list m) ∧
  aliases fresh_registry !! active_context fresh_registry = None ∧
  (remove_alias "ll" fresh_registry).1 = false ∧
  adds_empty_active_context fresh_registry
    (remove_alias "ll" fresh_registry).2 ∧
  (remove_aliases_for_instance map_order "vm1" fresh_registry).1 = [] ∧
  adds_empty_active_context fresh_registry
    (remove_aliases_for_instance map_order "vm1" fresh_registry).2.
Proof.
  split; [exact map_order_perm|]. split; [reflexivity|].
  pose proof (remove_without_active_context map_order map_order_perm
                "ll" "vm1" fresh_registry eq_refl) as (H1 & H2 & H3 & H4 & _).
  exact (conj H1 (conj H2 (conj H3 H4))).
Defined.

(** ** Serializing *)

Lemma for_each_throws {S A : Type} (body : S → A → result S)
    (P : runtime_error → Prop) (l : list A) (x : A) :
  x ∈ l →
  (∀ s, ∃ e, body s x = Throw e) →
  (∀ s y e, body s y = Throw e → P e) →
  ∀ s, ∃ e, for_each body l s = Throw e ∧ P e.
Proof.
  intros Hin Hx HP. induction l as [|y l IH]; intros s.
  - by apply not_elem_of_nil in Hin.
  - simpl. destruct (body s y) as [s'|e] eqn:E; simpl.
    + apply elem_of_cons in Hin as [->|Hin].
      * destruct (Hx s) as [e He]. congruence.
      * by apply IH.
    + exists e. split; [done|]. by eapply HP.
Qed.

Lemma check_working_directory_string_valid (dir : string) :
  valid_working_directory dir → check_working_directory_string dir = Ret tt.
Proof.
  intros H. unfold check_working_directory_string.
  rewrite decide_False; [done|]. destruct H; tauto.
Qed.

Lemma check_working_directory_string_invalid (dir : string) :
  ¬ valid_working_directory dir →
  check_working_directory_string dir = Throw (invalid_working_directory dir).
Proof.
  intros H. unfold check_working_directory_string.
  rewrite decide_True; [done|]. unfold valid_working_directory in H. tauto.
Qed.

Lemma check_working_directory_string_throws (dir : string) (e : runtime_error) :
  check_working_directory_string dir = Throw e → invalid_directory_error e.
Proof.
  unfold check_working_directory_string. case_decide as H; [|done].
  intros [= <-]. exists dir. split; [done|].
  unfold valid_working_directory. tauto.
Qed.

Lemma alias_to_json_valid (d : AliasDefinition) :
  valid_working_directory (working_directory d) →
  alias_to_json d = Ret (definition_json d).
Proof.
  intros H. unfold alias_to_json.
  by rewrite check_working_directory_string_valid.
Qed.

Lemma alias_to_json_invalid (d : AliasDefinition) :
  ¬ valid_working_directory (working_directory d) →
  alias_to_json d = Throw (invalid_working_directory (working_directory d)).
Proof.
  intros H. unfold alias_to_json.
  by rewrite check_working_directory_string_invalid.
Qed.

Lemma alias_to_json_throws (d : AliasDefinition) (e : runtime_error) :
  alias_to_json d = Throw e → invalid_directory_error e.
Proof.
  unfold alias_to_json.
  destruct (check_working_directory_string (working_directory d)) eqn:E;
    simpl; [done|].
  intros [= <-]. by eapply check_working_directory_string_throws.
Qed.

Section SerializeFacts.

Variable enumerate : ∀ A : Type, gmap string A → list (string * A).
Hypothesis enumerate_perm :
  ∀ (A : Type) (m : gmap string A), enumerate A m ≡ₚ map_to_list m.

Lemma context_to_json_throws (context : AliasContext) (e : runtime_error) :
  context_to_json enumerate context = Throw e → invalid_directory_error e.
Proof.
  unfold context_to_json.
  generalize (enumerate _ context), ([] : QJsonObject).
  intros l. induction l as [|[a d] l IH]; intros o; simpl; [done|].
  destruct (alias_to_json d) as [j|e'] eqn:E; simpl.
  - apply IH.
  - intros [= <-]. by eapply alias_to_json_throws.
Qed.

Lemma context_to_json_invalid (context : AliasContext) (a : string)
    (d : AliasDefinition) :
  context !! a = Some d →
  ¬ valid_working_directory (working_directory d) →
  ∃ e, context_to_json enumerate context = Throw e ∧
       invalid_directory_error e.
Proof.
  intros Ha Hd. unfold context_to_json.
  apply for_each_throws with (x := (a, d)).
  - by apply (elem_of_enumerate enumerate enumerate_perm).
  - intros o. simpl. rewrite alias_to_json_invalid by done. eauto.
  - intros o [a' d'] e. simpl.
    destruct (alias_to_json d') eqn:E; simpl; [done|].
    intros [= <-]. by eapply alias_to_json_throws.
Qed.

Lemma to_json_invalid (s : AliasDict) (c a : string) (d : AliasDefinition) :
  has_triple s c a d →
  ¬ valid_working_directory (working_directory d) →
  ∃ e, to_json enumerate s = Throw e ∧ invalid_directory_error e.
Proof.
  intros (context & Hc & Ha) Hd. unfold to_json.
  destruct (for_each_throws
    (λ (all_contexts_json : QJsonObject) (context : string * AliasContext),
       context_json ← context_to_json enumerate context.2;
       Ret (obj_insert (json_text context.1) (JObject context_json)
                       all_contexts_json))
    invalid_directory_error (enumerate _ (aliases s)) (c, context))
    with (s := ([] : QJsonObject)) as (e & He & HP).
  - by apply (elem_of_enumerate enumerate enumerate_perm).
  - intros o. simpl.
    destruct (context_to_json_invalid context a d Ha Hd) as (e & -> & _).
    eauto.
  - intros o [c' context'] e. simpl.
    destruct (context_to_json enumerate context') eqn:E; simpl; [done|].
    intros [= <-]. by eapply context_to_json_throws.
  - exists e. split; [|done]. simpl in *. by rewrite He.
Qed.

Variable MP_FILEOPS : FileOps.

(** C7.  When some alias of the registry has a working directory other
    than the two literals, serializing throws the validation error, and
    so does [save_dict], before it calls any file operation: the file
    system after the call is the one before it. *)
Theorem save_invalid_working_directory
    (s : AliasDict) (files : Files) (c a : string) (d : AliasDefinition) :
  has_triple s c a d →
  ¬ valid_working_directory (working_directory d) →
  (∃ e, to_json enumerate s = Throw e ∧ invalid_directory_error e) ∧
  (∃ e, (save_dict enumerate MP_FILEOPS s files).2 = (Throw e, files) ∧
        invalid_directory_error e).
Proof.
  intros Ht Hd. split; [by eapply to_json_invalid|].
  assert (Ht' : has_triple (sanitize_contexts enumerate s) c a d).
  { destruct Ht as (context & Hc & Ha). exists context. split; [|done].
    rewrite (lookup_sanitize_contexts enumerate enumerate_perm), Hc.
    rewrite decide_False; [done|]. intros [_ ->].
    by rewrite lookup_empty in Ha. }
  destruct (to_json_invalid _ c a d Ht' Hd) as (e & He & HP).
  exists e. split; [|done].
  unfold save_dict. simpl. unfold mbind, M_bind, bind, lift.
  by rewrite He.
Qed.

End SerializeFacts.

Lemma save_invalid_working_directory_witness :
  (∀ (A : Type) (m : gmap string A), map_order A m ≡ₚ map_to_list m) ∧
  has_triple bogus_registry "work" "ll" bogus_definition ∧
  ¬ valid_working_directory (working_directory bogus_definition) ∧
  ∃ e, (save_dict map_order reliable bogus_registry old_files).2 =
         (Throw e, old_files) ∧
       invalid_directory_error e.
Proof.
  split; [exact map_order_perm|].
  assert (Ht : has_triple bogus_registry "work" "ll" bogus_definition).
  { eexists. split; reflexivity. }
  assert (Hd : ¬ valid_working_directory (working_directory bogus_definition)).
  { intros [H|H]; discriminate H. }
  split; [exact Ht|]. split; [exact Hd|].
  exact (proj2 (save_invalid_working_directory map_order map_order_perm
                  reliable bogus_registry old_files "work" "ll"
                  bogus_definition Ht Hd)).
Defined.

(** ** JSON objects *)

Lemma compare_refl (k : string) : String.compare k k = Eq.
Proof.
  pose proof (String.compare_antisym k k) as H.
  destruct (String.compare k k); simpl in H; congruence.
Qed.

Lemma obj_find_put {A : Type} (k k' : string) (v : A) (o : list (string * A)) :
  obj_find k (obj_put k' v o) =
    if decide (k' = k) then Some v else obj_find k o.
Proof.
  induction o as [|[k0 x] o IH]; simpl; [done|].
  destruct (String.compare k' k0) eqn:E; simpl.
  - apply String.compare_eq_iff in E as ->.
    by destruct (decide (k0 = k)).
  - done.
  - rewrite IH. destruct (decide (k0 = k)) as [->|]; [|done].
    destruct (decide (k' = k)) as [->|]; [|done].
    by rewrite compare_refl in E.
Qed.

Lemma obj_find_Some {A : Type} (k : string) (v : A) (o : list (string * A)) :
  NoDup o.*1 → obj_find k o = Some v ↔ (k, v) ∈ o.
Proof.
  induction o as [|[k0 x] o IH]; simpl; intros Hnd.
  - split; [done|]. by intros ?%not_elem_of_nil.
  - apply NoDup_cons in Hnd as [Hk0 Hnd]. rewrite elem_of_cons.
    destruct (decide (k0 = k)) as [->|Hne].
    + split.
      * intros [= ->]. by left.
      * intros [[= ->]|Hin]; [done|].
        destruct Hk0. by apply (list_elem_of_fmap_2 fst) in Hin.
    + rewrite IH by done. split; [by right|].
      intros [[= ? ?]|?]; [congruence|done].
Qed.

Lemma obj_find_None {A : Type} (k : string) (o : list (string * A)) :
  k ∉ o.*1 → obj_find k o = None.
Proof.
  induction o as [|[k0 x] o IH]; simpl; [done|].
  intros H. apply not_elem_of_cons in H as [H1 H2].
  rewrite decide_False by done. by apply IH.
Qed.

Lemma obj_find_put_all {A : Type} (k : string) (l : list (string * A)) :
  NoDup l.*1 →
  ∀ o, obj_find k (foldl (λ o p, obj_put p.1 p.2 o) o l) =
       match obj_find k l with
       | Some v => Some v
       | None => obj_find k o
       end.
Proof.
  induction l as [|[k0 x] l IH]; simpl; intros Hnd o; [done|].
  apply NoDup_cons in Hnd as [Hk0 Hnd].
  rewrite IH by done. rewrite obj_find_put.
  destruct (decide (k0 = k)) as [->|Hne]; [|done].
  by rewrite obj_find_None.
Qed.

Lemma obj_put_fmap {A B : Type} (f : A → B) (k : string) (v : A)
    (o : list (string * A)) :
  obj_put k (f v) (prod_map id f <$> o) = prod_map id f <$> obj_put k v o.
Proof.
  induction o as [|[k0 x] o IH]; [done|].
  rewrite fmap_cons. cbn [obj_put prod_map fst snd id].
  destruct (String.compare k k0); [done|done|].
  by rewrite fmap_cons, IH.
Qed.

(** Reading through [o[key]] gives the string that [o.value(key)] gives,
    and leaves the values of the other keys as they were. *)
Lemma obj_subscript_toString (k : string) (o : QJsonObject) :
  toString (obj_subscript k o).1 = toString (obj_value k o) ∧
  isString (obj_subscript k o).1 = isString (obj_value k o).
Proof.
  unfold obj_subscript, obj_value. by destruct (obj_find k o).
Qed.

Lemma obj_subscript_other (k k' : string) (o : QJsonObject) :
  k ≠ k' → obj_value k' (obj_subscript k o).2 = obj_value k' o.
Proof.
  intros H. unfold obj_subscript, obj_value.
  destruct (obj_find k o); simpl; [done|].
  rewrite obj_find_put. by rewrite decide_False.
Qed.

(** ** Deserializing *)

Lemma records_to_context_step (alias : string) (v : QJsonValue)
    (rest : QJsonObject) (context : AliasContext) :
  obj_isEmpty (toObject v) = false →
  records_to_context ((alias, v) :: rest) context =
    result_bind
      (check_working_directory_string
         (working_directory (record_to_definition v)))
      (λ _, records_to_context rest
              (try_emplace alias (record_to_definition v) context).1).
Proof.
  intros H. cbn [records_to_context]. rewrite H.
  destruct (obj_subscript "instance" (toObject v)) as [r1 o1] eqn:E1.
  destruct (obj_subscript "command" o1) as [r2 o2] eqn:E2.
  destruct (obj_subscript "working-directory" o2) as [r3 o3] eqn:E3.
  assert (H1 : toString r1 = toString (obj_value "instance" (toObject v))).
  { change r1 with (r1, o1).1. rewrite <- E1. apply obj_subscript_toString. }
  assert (H2 : toString r2 = toString (obj_value "command" (toObject v))).
  { change r2 with (r2, o2).1. rewrite <- E2.
    rewrite (proj1 (obj_subscript_toString _ _)).
    change o1 with (r1, o1).2. rewrite <- E1.
    by rewrite obj_subscript_other. }
  assert (H3 : obj_value "working-directory" o2 =
               obj_value "working-directory" (toObject v)).
  { change o2 with (r2, o2).2. rewrite <- E2.
    rewrite obj_subscript_other by done.
    change o1 with (r1, o1).2. rewrite <- E1.
    by rewrite obj_subscript_other. }
  assert (H4 : toString r3 =
               toString (obj_value "working-directory" (toObject v)) ∧
               isString r3 =
               isString (obj_value "working-directory" (toObject v))).
  { change r3 with (r3, o3).1. rewrite <- E3, <- H3.
    apply obj_subscript_toString. }
  destruct H4 as [H4 H5]. rewrite H1, H2, H4, H5. done.
Qed.

Lemma records_to_context_nil_or_break (alias : string) (v : QJsonValue)
    (rest : QJsonObject) (context : AliasContext) :
  obj_isEmpty (toObject v) = true →
  records_to_context ((alias, v) :: rest) context = Ret context.
Proof. intros H. cbn [records_to_context]. by rewrite H. Qed.

Lemma records_to_context_throws (records : QJsonObject) :
  ∀ context e,
    records_to_context records context = Throw e → invalid_directory_error e.
Proof.
  induction records as [|[alias v] rest IH]; intros context e; [done|].
  destruct (obj_isEmpty (toObject v)) eqn:E.
  - by rewrite records_to_context_nil_or_break.
  - rewrite records_to_context_step by done.
    destruct (check_working_directory_string _) eqn:C; simpl.
    + apply IH.
    + intros [= <-]. by eapply check_working_directory_string_throws.
Qed.

Lemma records_to_context_parsed (records : QJsonObject) :
  ∀ context,
    Forall (λ p, valid_working_directory (working_directory p.2))
           (parsed_entries records) →
    records_to_context records context =
      Ret (emplace_all (parsed_entries records) context).
Proof.
  induction records as [|[alias v] rest IH]; intros context Hv; [done|].
  destruct (obj_isEmpty (toObject v)) eqn:E.
  - rewrite records_to_context_nil_or_break by done. simpl. by rewrite E.
  - rewrite records_to_context_step by done.
    simpl in Hv. rewrite E in Hv. apply Forall_cons in Hv as [Hd Hv].
    rewrite check_working_directory_string_valid by done. simpl.
    rewrite IH by done. by rewrite E.
Qed.

Lemma lookup_emplace_all {A : Type} (l : list (string * A)) :
  ∀ (m : gmap string A) (k : string),
    emplace_all l m !! k =
      match m !! k with
      | Some x => Some x
      | None => obj_find k l
      end.
Proof.
  unfold emplace_all.
  induction l as [|[k0 x] l IH]; intros m k; cbn [foldl].
  - simpl. by destruct (m !! k).
  - rewrite IH. unfold try_emplace. simpl.
    destruct (m !! k0) as [y|] eqn:E0; simpl.
    + destruct (m !! k) eqn:E; [done|].
      rewrite decide_False; [done|]. congruence.
    + destruct (decide (k0 = k)) as [->|Hne].
      * by rewrite lookup_insert_eq, E0.
      * by rewrite lookup_insert_ne.
Qed.

Lemma records_to_context_Ret (records : QJsonObject) :
  ∀ context context',
    records_to_context records context = Ret context' →
    Forall (λ p, valid_working_directory (working_directory p.2))
           (parsed_entries records).
Proof.
  induction records as [|[alias v] rest IH]; intros context context'.
  - intros _. constructor.
  - destruct (obj_isEmpty (toObject v)) eqn:E.
    + intros _. simpl. rewrite E. constructor.
    + rewrite records_to_context_step by done. simpl. rewrite E.
      destruct (check_working_directory_string _) eqn:C; simpl; [|done].
      intros H. constructor; [|by eapply IH].
      simpl. unfold check_working_directory_string in C.
      case_decide as Hd; [done|]. unfold valid_working_directory.
      destruct (decide (read_working_directory (toObject v) = "map"));
        [by left|].
      destruct (decide (read_working_directory (toObject v) = "default"));
        [by right|].
      destruct Hd. done.
Qed.

Lemma records_to_context_break (l1 l2 : QJsonObject) (k : string)
    (v : QJsonValue) :
  obj_isEmpty (toObject v) = true →
  ∀ context,
    records_to_context (l1 ++ (k, v) :: l2) context =
    records_to_context l1 context.
Proof.
  intros Hv. induction l1 as [|[a w] l1 IH]; intros context.
  - by rewrite app_nil_l, records_to_context_nil_or_break.
  - rewrite <- app_comm_cons.
    destruct (obj_isEmpty (toObject w)) eqn:E.
    + by rewrite !records_to_context_nil_or_break.
    + rewrite !records_to_context_step by done.
      destruct (check_working_directory_string _); simpl; [|done].
      apply IH.
Qed.

Lemma obj_contains_app_break (key : string) (l1 l2 : QJsonObject) (k : string)
    (v : QJsonValue) :
  obj_contains key (l1 ++ (k, v) :: l2) = false →
  obj_contains key l1 = false.
Proof.
  unfold obj_contains. induction l1 as [|[a w] l1 IH]; simpl; [done|].
  destruct (decide (a = key)); [done|]. apply IH.
Qed.

Lemma load_document_legacy (records : QJsonObject) (s : AliasDict) :
  obj_isEmpty records = false →
  obj_contains "active-context" records = false →
  load_document (DocObject records) s =
    match records_to_context records ∅ with
    | Throw e => (Throw e, assign_active_context "default" s)
    | Ret context =>
        (Ret tt,
         set_aliases (try_emplace "default" context (aliases s)).1
                     (assign_active_context "default" s))
    end.
Proof.
  intros H1 H2. unfold load_document. simpl. by rewrite H1, H2.
Qed.

(** C9.  A record that is empty ends the parse of its context: the
    context built from the records up to and after such a record is the
    one built from the records before it, and no error is raised for it.
    This holds for a context of a file in the new format and for the single
    context of a legacy file. *)
Theorem empty_record_stops_parse
    (l1 l2 : QJsonObject) (k : string) (v : QJsonValue)
    (context : AliasContext) (name : string) (rest : QJsonObject)
    (m : DictType) (s : AliasDict) :
  obj_isEmpty (toObject v) = true →
  records_to_context (l1 ++ (k, v) :: l2) context =
    records_to_context l1 context ∧
  (∀ context', records_to_context l1 context = Ret context' →
     records_to_context (l1 ++ (k, v) :: l2) context = Ret context') ∧
  load_contexts ((name, JObject (l1 ++ (k, v) :: l2)) :: rest) m =
    load_contexts ((name, JObject l1) :: rest) m ∧
  (obj_contains "active-context" (l1 ++ (k, v) :: l2) = false →
   load_document (DocObject (l1 ++ (k, v) :: l2)) s =
     match records_to_context l1 ∅ with
     | Throw e => (Throw e, assign_active_context "default" s)
     | Ret context' =>
         (Ret tt,
          set_aliases (try_emplace "default" context' (aliases s)).1
                      (assign_active_context "default" s))
     end).
Proof.
  intros Hv. split_and!.
  - by apply records_to_context_break.
  - intros context' <-. by apply records_to_context_break.
  - cbn [load_contexts toObject].
    by rewrite records_to_context_break.
  - intros Hc. rewrite load_document_legacy; [|by destruct l1|done].
    by rewrite records_to_context_break.
Qed.

Lemma empty_record_stops_parse_witness :
  obj_isEmpty (toObject (JObject [])) = true ∧
  records_to_context
    ([("a", JObject [("instance", JString "vm1")])]
     ++ ("b", JObject []) :: [("c", JObject [("instance", JString "vm2")])])
    ∅ =
  records_to_context [("a", JObject [("instance", JString "vm1")])] ∅.
Proof.
  split; [reflexivity|].
  exact (proj1 (empty_record_stops_parse
                  [("a", JObject [("instance", JString "vm1")])]
                  [("c", JObject [("instance", JString "vm2")])]
                  "b" (JObject []) ∅ "work" [] ∅ initial_registry eq_refl)).
Defined.

(** The entries of [broken_records] after the empty record are lost. *)
Example broken_records_parse :
  records_to_context broken_records ∅ =
    Ret {[ "a" := mkAliasDefinition "vm1" "" "default" ]}.
Proof. reflexivity. Qed.

(** ** Loading a legacy file *)

Lemma load_dict_document (ops : FileOps) (files : Files) (s : AliasDict)
    (doc : QJsonDocument) :
  files !! aliases_file s = Some doc →
  open_fails ops (aliases_file s) = false →
  load_dict ops files s = load_document doc (set_aliases ∅ s).
Proof.
  intros Hf Ho. unfold load_dict, fileops_open_read, fileops_exists.
  by rewrite Hf, Ho.
Qed.

Lemma get_alias_singleton (name a : string) (context : AliasContext)
    (dirty : bool) (file : string) :
  get_alias a (mkAliasDict name {[ name := context ]} dirty file) =
    context !! a.
Proof. unfold get_alias. simpl. by rewrite lookup_singleton_eq. Qed.

(** C4, as the code has it.  A legacy file, one whose top-level object is
    not empty and has no key active-context, makes [load_dict] set the
    active context to default.  When each entry that is reached carries a
    valid working directory, where a value that is absent, not a string or
    empty counts as default, the registry afterwards has the one context
    default, which binds each name that is reached to what was read for
    it; otherwise [load_dict] throws the validation error. *)
Theorem legacy_file_loads_into_default
    (ops : FileOps) (files : Files) (s : AliasDict) (records : QJsonObject) :
  files !! aliases_file s = Some (DocObject records) →
  open_fails ops (aliases_file s) = false →
  obj_isEmpty records = false →
  obj_contains "active-context" records = false →
  active_context (load_dict ops files s).2 = "default" ∧
  (Forall (λ p, valid_working_directory (working_directory p.2))
          (parsed_entries records) →
   load_dict ops files s =
     (Ret tt,
      mkAliasDict "default"
        {[ "default" := emplace_all (parsed_entries records) ∅ ]}
        (modified s) (aliases_file s)) ∧
   ∀ a, get_alias a (load_dict ops files s).2 =
        obj_find a (parsed_entries records)) ∧
  (¬ Forall (λ p, valid_working_directory (working_directory p.2))
            (parsed_entries records) →
   ∃ e, (load_dict ops files s).1 = Throw e ∧ invalid_directory_error e) ∧
  (∀ v, isString (obj_value "working-directory" (toObject v)) = false ∨
        toString (obj_value "working-directory" (toObject v)) = "" →
        working_directory (record_to_definition v) = "default").
Proof.
  intros Hf Ho He Hc.
  rewrite (load_dict_document _ _ _ _ Hf Ho).
  rewrite load_document_legacy by done.
  split_and!.
  - by destruct (records_to_context records ∅).
  - intros Hv. rewrite records_to_context_parsed by done.
    unfold try_emplace, set_aliases, assign_active_context.
    cbn [aliases active_context modified aliases_file].
    rewrite lookup_empty, insert_empty. cbn [fst snd].
    split; [done|]. intros a.
    rewrite get_alias_singleton, lookup_emplace_all.
    by rewrite lookup_empty.
  - intros Hv. destruct (records_to_context records ∅) as [c|e] eqn:E.
    + destruct Hv. by eapply records_to_context_Ret.
    + exists e. split; [done|]. by eapply records_to_context_throws.
  - intros v H. simpl. unfold read_working_directory.
    destruct H as [-> | ->]; [done|]. simpl. by rewrite andb_false_r.
Qed.

Lemma legacy_file_loads_into_default_witness :
  ({[ "aliases.json" := DocObject legacy_records ]} : Files)
    !! aliases_file initial_registry = Some (DocObject legacy_records) ∧
  open_fails reliable (aliases_file initial_registry) = false ∧
  obj_isEmpty legacy_records = false ∧
  obj_contains "active-context" legacy_records = false ∧
  active_context
    (load_dict reliable {[ "aliases.json" := DocObject legacy_records ]}
               initial_registry).2 = "default".
Proof.
  split_and!; [reflexivity..|].
  exact (proj1 (legacy_file_loads_into_default reliable
                  {[ "aliases.json" := DocObject legacy_records ]}
                  initial_registry legacy_records
                  eq_refl eq_refl eq_refl eq_refl)).
Defined.

(** The legacy file of the spec loads as the spec has it. *)
Example legacy_file_example :
  get_alias "x"
    (load_dict reliable {[ "aliases.json" := DocObject legacy_records ]}
               initial_registry).2 =
    Some (mkAliasDefinition "vm1" "ls" "default").
Proof. reflexivity. Qed.

Example constructor_initial_registry (files : Files) :
  constructor reliable "aliases.json" files =
    load_dict reliable files initial_registry.
Proof. reflexivity. Qed.

(** C4, as stated, fails on the empty object: it has no key
    active-context, and [load_dict] returns before it sets the active
    context, which stays what the constructor made it. *)
Lemma legacy_empty_object_counterexample :
  obj_contains "active-context" (doc_object (DocObject [])) = false ∧
  (load_dict reliable {[ "aliases.json" := DocObject [] ]}
             initial_registry).1 = Ret tt ∧
  active_context
    (load_dict reliable {[ "aliases.json" := DocObject [] ]}
               initial_registry).2 ≠ "default" ∧
  aliases
    (load_dict reliable {[ "aliases.json" := DocObject [] ]}
               initial_registry).2 !! "default" = None.
Proof. split_and!; [reflexivity|reflexivity|discriminate|reflexivity]. Qed.

(** ** Round trip through the codec *)

Lemma definition_json_pairs (d : AliasDefinition) :
  definition_json d =
    [("command", JString (json_text (command d)));
     ("instance", JString (json_text (instance d)));
     ("working-directory", JString (json_text (working_directory d)))].
Proof. reflexivity. Qed.

Lemma valid_working_directory_lossless (dir : string) :
  valid_working_directory dir → lossless dir.
Proof. intros [-> | ->]; vm_compute; reflexivity. Qed.

Lemma record_to_definition_json (d : AliasDefinition) :
  valid_working_directory (working_directory d) →
  lossless (instance d) → lossless (command d) →
  record_to_definition (JObject (definition_json d)) = d.
Proof.
  destruct d as [i c w]. cbn [instance command working_directory].
  intros Hw Hi Hc. rewrite definition_json_pairs.
  cbn [instance command working_directory].
  rewrite (valid_working_directory_lossless w Hw), Hi, Hc.
  destruct Hw as [-> | ->]; reflexivity.
Qed.

Lemma parsed_entries_encode (l : list (string * AliasDefinition)) :
  Forall (λ p, valid_working_directory (working_directory p.2) ∧
               lossless (instance p.2) ∧ lossless (command p.2)) l →
  parsed_entries (encode_alias <$> l) = l.
Proof.
  induction 1 as [|[a d] l (Hd & Hi & Hc) Hl IH]; [done|].
  rewrite fmap_cons. cbn [encode_alias prod_map fst snd id parsed_entries].
  rewrite definition_json_pairs. cbn [toObject obj_isEmpty].
  rewrite <- definition_json_pairs, record_to_definition_json by done.
  by rewrite IH.
Qed.

Lemma fmap_json_text_lossless {A : Type} (l : list (string * A)) :
  Forall (λ p, lossless p.1) l → prod_map json_text id <$> l = l.
Proof.
  induction 1 as [|[k x] l Hk Hl IH]; [done|].
  rewrite fmap_cons, IH. cbn [prod_map fst snd id]. by rewrite Hk.
Qed.

Lemma foldl_obj_put_json_text {A : Type} (l : list (string * A)) :
  ∀ o, foldl (λ o p, obj_put (json_text p.1) p.2 o) o l =
       foldl (λ o p, obj_put p.1 p.2 o) o (prod_map json_text id <$> l).
Proof.
  induction l as [|[k x] l IH]; intros o; [done|].
  rewrite fmap_cons. cbn [foldl prod_map fst snd id]. apply IH.
Qed.

Lemma elem_of_obj_put {A : Type} (p : string * A) (k : string) (v : A)
    (o : list (string * A)) :
  p ∈ obj_put k v o → p = (k, v) ∨ p ∈ o.
Proof.
  induction o as [|[k0 x] o IH]; simpl.
  - intros ?%list_elem_of_singleton. by left.
  - destruct (String.compare k k0).
    + intros [->|?]%elem_of_cons; [by left|]. right. by right.
    + intros [->|?]%elem_of_cons; [by left|by right].
    + intros [->|[->|?]%IH]%elem_of_cons; [right; by left|by left|].
      right. by right.
Qed.

Lemma elem_of_put_all {A : Type} (p : string * A) (l : list (string * A)) :
  p ∈ put_all l → p ∈ l.
Proof.
  unfold put_all.
  assert (G : ∀ o, p ∈ foldl (λ o p, obj_put p.1 p.2 o) o l → p ∈ o ∨ p ∈ l).
  { induction l as [|[k v] l IH]; intros o; cbn [foldl]; [by left|].
    intros [[->|?]%elem_of_obj_put|?]%IH.
    - right. by left.
    - by left.
    - right. by right. }
  intros [?%not_elem_of_nil|?]%G; done.
Qed.

Lemma obj_insert_encode_alias (a : string) (d : AliasDefinition)
    (o : list (string * AliasDefinition)) :
  obj_insert a (JObject (definition_json d)) (encode_alias <$> o) =
    encode_alias <$> obj_put a d o.
Proof. apply (obj_put_fmap (λ d, JObject (definition_json d))). Qed.

Lemma obj_insert_encode_context
    (enumerate : ∀ A : Type, gmap string A → list (string * A))
    (c : string) (context : AliasContext)
    (o : list (string * AliasContext)) :
  obj_insert c (JObject (context_json enumerate context))
             (encode_context enumerate <$> o) =
    encode_context enumerate <$> obj_put c context o.
Proof.
  apply (obj_put_fmap (λ context, JObject (context_json enumerate context))).
Qed.

Lemma load_document_new_format (name : string) (contexts : QJsonObject)
    (s : AliasDict) :
  load_document
    (DocObject [("active-context", JString name);
                ("contexts", JObject contexts)]) s =
    ((load_contexts contexts (aliases s)).1,
     set_aliases (load_contexts contexts (aliases s)).2
                 (assign_active_context name s)).
Proof.
  unfold load_document. cbv -[load_contexts].
  by destruct (load_contexts contexts _).
Qed.

Section RoundTrip.

Variable enumerate : ∀ A : Type, gmap string A → list (string * A).
Hypothesis enumerate_perm :
  ∀ (A : Type) (m : gmap string A), enumerate A m ≡ₚ map_to_list m.

Lemma obj_find_enumerate {A : Type} (m : gmap string A) (k : string) :
  obj_find k (put_all (enumerate A m)) = m !! k.
Proof.
  unfold put_all.
  rewrite obj_find_put_all
    by apply (NoDup_fst_enumerate enumerate enumerate_perm).
  simpl. apply option_eq. intros v.
  rewrite <- (elem_of_enumerate enumerate enumerate_perm).
  rewrite <- obj_find_Some
    by apply (NoDup_fst_enumerate enumerate enumerate_perm).
  by destruct (obj_find k (enumerate A m)).
Qed.

Lemma elem_of_put_all_enumerate {A : Type} (m : gmap string A)
    (k : string) (x : A) :
  (k, x) ∈ put_all (enumerate A m) → m !! k = Some x.
Proof.
  intros H%elem_of_put_all.
  by apply (elem_of_enumerate enumerate enumerate_perm).
Qed.

Lemma context_to_json_loop (l : list (string * AliasDefinition)) :
  Forall (λ p, valid_working_directory (working_directory p.2)) l →
  ∀ o : list (string * AliasDefinition),
    for_each
      (λ (context_json : QJsonObject) (alias : string * AliasDefinition),
         alias_definition ← alias_to_json alias.2;
         Ret (obj_insert (json_text alias.1) (JObject alias_definition)
                         context_json))
      l (encode_alias <$> o) =
    Ret (encode_alias
           <$> foldl (λ o p, obj_put (json_text p.1) p.2 o) o l).
Proof.
  induction 1 as [|[a d] l Hd Hl IH]; intros o; [done|].
  cbn [for_each foldl fst snd]. rewrite alias_to_json_valid by done.
  cbn [mbind result_mbind result_bind].
  rewrite obj_insert_encode_alias. apply IH.
Qed.

Lemma context_to_json_valid (context : AliasContext) :
  (∀ a d, context !! a = Some d →
          valid_working_directory (working_directory d)) →
  context_to_json enumerate context = Ret (context_json enumerate context).
Proof.
  intros Hv. unfold context_to_json, context_json, put_all.
  rewrite <- foldl_obj_put_json_text.
  apply (context_to_json_loop _) with (o := []).
  apply Forall_forall. intros [a d] Hin. simpl.
  apply (Hv a). by apply (elem_of_enumerate enumerate enumerate_perm).
Qed.

Lemma context_json_lossless (context : AliasContext) :
  faithful_context context →
  context_json enumerate context =
    encode_alias <$> put_all (enumerate _ context).
Proof.
  intros Hv. unfold context_json. rewrite fmap_json_text_lossless; [done|].
  apply Forall_forall. intros [a d] Hin. simpl.
  apply (elem_of_enumerate enumerate enumerate_perm) in Hin.
  by destruct (Hv a d Hin) as (_ & ? & _).
Qed.

Lemma context_round_trip (context : AliasContext) :
  faithful_context context →
  records_to_context (context_json enumerate context) ∅ = Ret context.
Proof.
  intros Hv. rewrite context_json_lossless by done.
  assert (F : Forall (λ p, valid_working_directory (working_directory p.2) ∧
                           lossless (instance p.2) ∧ lossless (command p.2))
                     (put_all (enumerate _ context))).
  { apply Forall_forall. intros [a d] Hin. simpl.
    apply elem_of_put_all_enumerate in Hin.
    destruct (Hv a d Hin) as (? & _ & ? & ?). done. }
  rewrite records_to_context_parsed; rewrite parsed_entries_encode by done.
  - f_equal. apply map_eq. intros a.
    by rewrite lookup_emplace_all, lookup_empty, obj_find_enumerate.
  - eapply Forall_impl; [exact F|]. by intros p (? & _).
Qed.

Lemma to_json_loop (l : list (string * AliasContext)) :
  Forall (λ p : string * AliasContext,
            ∀ a d, p.2 !! a = Some d →
                   valid_working_directory (working_directory d)) l →
  ∀ o : list (string * AliasContext),
    for_each
      (λ (all_contexts_json : QJsonObject) (context : string * AliasContext),
         context_json ← context_to_json enumerate context.2;
         Ret (obj_insert (json_text context.1) (JObject context_json)
                         all_contexts_json))
      l (encode_context enumerate <$> o) =
    Ret (encode_context enumerate
           <$> foldl (λ o p, obj_put (json_text p.1) p.2 o) o l).
Proof.
  induction 1 as [|[c context] l Hc Hl IH]; intros o; [done|].
  cbn [for_each foldl fst snd]. rewrite context_to_json_valid by done.
  cbn [mbind result_mbind result_bind].
  rewrite obj_insert_encode_context. apply IH.
Qed.

Lemma to_json_valid (s : AliasDict) :
  all_valid (aliases s) →
  to_json enumerate s = Ret (dict_json enumerate s).
Proof.
  intros Hv. unfold to_json, dict_json, put_all.
  rewrite <- foldl_obj_put_json_text.
  rewrite (to_json_loop _) with (o := []); [done|].
  apply Forall_forall. intros [c context] Hin a d Ha. simpl in *.
  apply (Hv c context) with (i := a); [|done].
  by apply (elem_of_enumerate enumerate enumerate_perm).
Qed.

Lemma load_contexts_encode (l : list (string * AliasContext)) :
  Forall (λ p : string * AliasContext, faithful_context p.2) l →
  ∀ m, load_contexts (encode_context enumerate <$> l) m =
       (Ret tt, emplace_all l m).
Proof.
  induction 1 as [|[c context] l Hc Hl IH]; intros m; [done|].
  rewrite fmap_cons.
  cbn [encode_context prod_map fst snd id load_contexts toObject].
  rewrite context_round_trip by done.
  fold (encode_context enumerate). by rewrite IH.
Qed.

Lemma faithful_contexts (s : AliasDict) (c : string)
    (context : AliasContext) :
  all_valid (aliases s) → all_lossless s →
  aliases s !! c = Some context →
  lossless c ∧ faithful_context context.
Proof.
  intros Hv [_ Hl] Hc. destruct (Hl c context Hc) as [Hlc Hla].
  split; [done|]. intros a d Ha.
  split; [by apply (Hv c context Hc a)|]. by apply (Hla a).
Qed.

Lemma load_document_dict_json (s s0 : AliasDict) :
  all_valid (aliases s) → all_lossless s →
  load_document (DocObject (dict_json enumerate s)) (set_aliases ∅ s0) =
    (Ret tt,
     mkAliasDict (active_context s) (aliases s) (modified s0)
                 (aliases_file s0)).
Proof.
  intros Hv Hl. unfold dict_json. rewrite load_document_new_format.
  cbn [set_aliases aliases].
  rewrite fmap_json_text_lossless.
  - rewrite load_contexts_encode.
    + unfold set_aliases, assign_active_context.
      cbn [fst snd aliases active_context modified aliases_file].
      destruct Hl as [-> _]. do 2 f_equal.
      apply map_eq. intros c.
      by rewrite lookup_emplace_all, lookup_empty, obj_find_enumerate.
    + apply Forall_forall. intros [c context] Hin. simpl.
      apply elem_of_put_all_enumerate in Hin.
      by destruct (faithful_contexts s c context Hv Hl Hin).
  - apply Forall_forall. intros [c context] Hin. simpl.
    apply (elem_of_enumerate enumerate enumerate_perm) in Hin.
    by destruct (faithful_contexts s c context Hv Hl Hin).
Qed.

Variable MP_FILEOPS : FileOps.

(** C3, as the code has it.  When every definition of the registry
    carries a valid working directory, and the active context, the names
    of the contexts and of the aliases, the instances and the commands
    are strings that the conversion to [QString] and back leaves as they
    are, [to_json] returns a document, and loading that document, into any
    registry and from any file that holds it, gives the active context and
    the map of contexts of the registry that was serialized: the two
    registries have the same (context, alias, definition) triples,
    whatever the order of the traversals. *)
Theorem to_json_load_round_trip
    (s s0 : AliasDict) (files : Files) :
  all_valid (aliases s) →
  all_lossless s →
  ∃ document,
    to_json enumerate s = Ret document ∧
    load_document (DocObject document) (set_aliases ∅ s0) =
      (Ret tt,
       mkAliasDict (active_context s) (aliases s) (modified s0)
                   (aliases_file s0)) ∧
    (files !! aliases_file s0 = Some (DocObject document) →
     open_fails MP_FILEOPS (aliases_file s0) = false →
     (load_dict MP_FILEOPS files s0).1 = Ret tt ∧
     active_context (load_dict MP_FILEOPS files s0).2 = active_context s ∧
     aliases (load_dict MP_FILEOPS files s0).2 = aliases s ∧
     ∀ c a d, has_triple (load_dict MP_FILEOPS files s0).2 c a d ↔
              has_triple s c a d).
Proof.
  intros Hv Hl. exists (dict_json enumerate s).
  split; [by apply to_json_valid|].
  split; [by apply load_document_dict_json|].
  intros Hf Ho. rewrite (load_dict_document _ _ _ _ Hf Ho).
  rewrite load_document_dict_json by done. done.
Qed.

End RoundTrip.

Lemma work_registry_valid : all_valid (aliases work_registry).
Proof.
  refine (bool_decide_unpack (all_valid (aliases work_registry)) _).
  vm_compute. exact I.
Defined.

Lemma work_registry_lossless : all_lossless work_registry.
Proof.
  refine (bool_decide_unpack (all_lossless work_registry) _).
  vm_compute. exact I.
Defined.

Lemma to_json_load_round_trip_witness :
  (∀ (A : Type) (m : gmap string A), map_order A m ≡ₚ map_to_list m) ∧
  all_valid (aliases work_registry) ∧
  all_lossless work_registry ∧
  ∃ document,
    to_json map_order work_registry = Ret document ∧
    load_document (DocObject document) (set_aliases ∅ initial_registry) =
      (Ret tt,
       mkAliasDict (active_context work_registry) (aliases work_registry)
                   (modified initial_registry)
                   (aliases_file initial_registry)).
Proof.
  split; [exact map_order_perm|].
  split; [exact work_registry_valid|].
  split; [exact work_registry_lossless|].
  destruct (to_json_load_round_trip map_order map_order_perm reliable
              work_registry initial_registry ∅ work_registry_valid
              work_registry_lossless) as (document & H1 & H2 & _).
  exists document. exact (conj H1 H2).
Defined.

(** C3, as stated, fails on names that are not UTF-8.  The two aliases of
    this registry, named by the bytes 255 and 254, carry valid working
    directories; the conversion to [QString] makes the replacement
    character of both names, so that the document has one entry for the
    two, and the registry loaded from it has neither name.  A name that
    starts with a byte order mark comes back without it. *)
Lemma round_trip_not_utf8_counterexample :
  all_valid (aliases bytes_registry) ∧
  to_json map_order bytes_registry =
    Ret (dict_json map_order bytes_registry) ∧
  has_triple bytes_registry "work" name_255 ll_definition ∧
  (load_document (DocObject (dict_json map_order bytes_registry))
                 (set_aliases ∅ initial_registry)).1 = Ret tt ∧
  ¬ has_triple
      (load_document (DocObject (dict_json map_order bytes_registry))
                     (set_aliases ∅ initial_registry)).2
      "work" name_255 ll_definition ∧
  dom <$> (aliases
             (load_document (DocObject (dict_json map_order bytes_registry))
                            (set_aliases ∅ initial_registry)).2 !! "work")
    = Some ({[ replacement_name ]} : gset string) ∧
  all_valid (aliases bom_registry) ∧
  to_json map_order bom_registry = Ret (dict_json map_order bom_registry) ∧
  get_alias name_bom_ll bom_registry = Some ll_definition ∧
  get_alias name_bom_ll
    (load_document (DocObject (dict_json map_order bom_registry))
                   (set_aliases ∅ initial_registry)).2 = None ∧
  get_alias "ll"
    (load_document (DocObject (dict_json map_order bom_registry))
                   (set_aliases ∅ initial_registry)).2 = Some ll_definition.
Proof.
  split_and!.
  - refine (bool_decide_unpack (all_valid (aliases bytes_registry)) _).
    vm_compute. exact I.
  - vm_compute. reflexivity.
  - eexists. split; vm_compute; reflexivity.
  - vm_compute. reflexivity.
  - intros (context & H1 & H2). vm_compute in H1.
    injection H1 as <-. vm_compute in H2. discriminate H2.
  - vm_compute. reflexivity.
  - refine (bool_decide_unpack (all_valid (aliases bom_registry)) _).
    vm_compute. exact I.
  - vm_compute. reflexivity.
  - vm_compute. reflexivity.
  - vm_compute. reflexivity.
  - vm_compute. reflexivity.
Qed.

(** The file of the spec in the new format loads as the spec has it. *)
Example new_format_example :
  let s :=
    (load_dict reliable
       {[ "aliases.json" :=
            DocObject
              [("active-context", JString "work");
               ("contexts",
                JObject [("work",
                          JObject [("ll", JObject (definition_json
                                                     ll_definition))])])] ]}
       initial_registry).2 in
  get_active_context s = "work" ∧ get_alias "ll" s = Some ll_definition.
Proof. split; reflexivity. Qed.

(** ** Saving *)

Lemma length_append (s1 s2 : string) :
  String.length (s1 +:+ s2) = String.length s1 + String.length s2.
Proof. induction s1 as [|c s1 IH]; simpl; [done|]. by rewrite IH. Qed.

Lemma append_bak_ne (f : string) : f ≠ f +:+ ".bak".
Proof.
  intros H. apply (f_equal String.length) in H.
  rewrite length_append in H. simpl in H. lia.
Qed.

Section SaveFacts.

Variable enumerate : ∀ A : Type, gmap string A → list (string * A).
Variable MP_FILEOPS : FileOps.

Lemma aliases_file_sanitize_contexts (s : AliasDict) :
  aliases_file (sanitize_contexts enumerate s) = aliases_file s.
Proof. unfold sanitize_contexts. by destruct (decide _). Qed.

Lemma modified_sanitize_contexts (s : AliasDict) :
  modified s = true → modified (sanitize_contexts enumerate s) = true.
Proof. unfold sanitize_contexts. by destruct (decide _). Qed.

(** The temporary file cannot be prepared: [save_dict] throws. *)
Lemma save_dict_create_failure (s : AliasDict) (files : Files)
    (document : QJsonObject) :
  to_json enumerate (sanitize_contexts enumerate s) = Ret document →
  create_temp_fails MP_FILEOPS (aliases_file s) = true →
  (save_dict enumerate MP_FILEOPS s files).2 =
    (Throw (cannot_create_temp (aliases_file s)), files).
Proof.
  intros Hj Hc. unfold save_dict. cbn [snd].
  rewrite aliases_file_sanitize_contexts.
  unfold mbind, M_bind, bind, lift, create_temp_file_with_path.
  by rewrite Hj, Hc.
Qed.

(** The temporary file cannot be opened: [save_dict] returns as if it
    had saved, and no file is written. *)
Lemma save_dict_open_failure (s : AliasDict) (files : Files)
    (document : QJsonObject) :
  to_json enumerate (sanitize_contexts enumerate s) = Ret document →
  create_temp_fails MP_FILEOPS (aliases_file s) = false →
  open_fails MP_FILEOPS (temp_file_name MP_FILEOPS (aliases_file s))
    = true →
  (save_dict enumerate MP_FILEOPS s files).2 = (Ret tt, files).
Proof.
  intros Hj Hc Ho. unfold save_dict. cbn [snd].
  rewrite aliases_file_sanitize_contexts.
  unfold mbind, M_bind, bind, lift, create_temp_file_with_path,
    fileops_open_temp.
  rewrite Hj, Hc. cbn [mret M_ret ret]. by rewrite Ho.
Qed.

(** The temporary file cannot be written: [save_dict] throws, and the
    only file that differs is the temporary file. *)
Lemma save_dict_write_failure (s : AliasDict) (files : Files)
    (document : QJsonObject) :
  to_json enumerate (sanitize_contexts enumerate s) = Ret document →
  create_temp_fails MP_FILEOPS (aliases_file s) = false →
  open_fails MP_FILEOPS (temp_file_name MP_FILEOPS (aliases_file s))
    = false →
  files !! temp_file_name MP_FILEOPS (aliases_file s) = None →
  write_fails MP_FILEOPS (temp_file_name MP_FILEOPS (aliases_file s))
    = true →
  (save_dict enumerate MP_FILEOPS s files).2 =
    (Throw (cannot_write_json
              (temp_file_name MP_FILEOPS (aliases_file s))),
     <[temp_file_name MP_FILEOPS (aliases_file s) := DocNull]> files).
Proof.
  intros Hj Hc Ho Hf Hw. unfold save_dict. cbn [snd].
  rewrite aliases_file_sanitize_contexts.
  unfold mbind, M_bind, bind, lift, create_temp_file_with_path,
    fileops_open_temp, write_json.
  rewrite Hj, Hc. cbn [mret M_ret ret]. rewrite Ho, Hf. simpl.
  rewrite Hw. by rewrite insert_insert_eq.
Qed.

(** Nothing fails and the name of the temporary file is a new one:
    [save_dict] returns, the target holds the document, the file that was
    the target is the backup, and no other file differs. *)
Lemma save_dict_success (s : AliasDict) (files : Files)
    (document : QJsonObject) :
  to_json enumerate (sanitize_contexts enumerate s) = Ret document →
  create_temp_fails MP_FILEOPS (aliases_file s) = false →
  open_fails MP_FILEOPS (temp_file_name MP_FILEOPS (aliases_file s))
    = false →
  files !! temp_file_name MP_FILEOPS (aliases_file s) = None →
  write_fails MP_FILEOPS (temp_file_name MP_FILEOPS (aliases_file s))
    = false →
  temp_file_name MP_FILEOPS (aliases_file s) ≠ aliases_file s →
  temp_file_name MP_FILEOPS (aliases_file s) ≠ aliases_file s +:+ ".bak" →
  remove_fails MP_FILEOPS (aliases_file s +:+ ".bak") = false →
  rename_fails MP_FILEOPS (aliases_file s) (aliases_file s +:+ ".bak")
    = false →
  rename_fails MP_FILEOPS (temp_file_name MP_FILEOPS (aliases_file s))
               (aliases_file s) = false →
  (save_dict enumerate MP_FILEOPS s files).2 =
    (Ret tt,
     <[aliases_file s := DocObject document]>
       match files !! aliases_file s with
       | Some old => <[aliases_file s +:+ ".bak" := old]> files
       | None => files
       end).
Proof.
  intros Hj Hc Ho Hf Hw Hne1 Hne2 Hrm Hrn1 Hrn2.
  unfold save_dict. cbn [snd]. rewrite aliases_file_sanitize_contexts.
  set (f := aliases_file s) in *.
  set (tmp := temp_file_name MP_FILEOPS f) in *.
  set (bak := f +:+ ".bak") in *.
  assert (Hfb : f ≠ bak) by apply append_bak_ne.
  unfold mbind, M_bind, bind, lift, gets, create_temp_file_with_path,
    fileops_open_temp, write_json, fileops_exists.
  rewrite Hj, Hc. cbn [mret M_ret ret]. fold tmp. rewrite Ho, Hf. simpl.
  rewrite Hw, insert_insert_eq.
  unfold fileops_remove, fileops_rename.
  rewrite lookup_insert_ne by done.
  destruct (files !! f) as [old|] eqn:Ef; simpl.
  - rewrite lookup_insert_ne by done.
    assert (E3 : delete bak (<[tmp := DocObject document]> files) !! f
                 = Some old)
      by by rewrite lookup_delete_ne, lookup_insert_ne.
    assert (E4 : <[tmp := DocObject document]> files !! f = Some old)
      by by rewrite lookup_insert_ne.
    destruct (files !! bak) as [older|] eqn:Eb; simpl.
    + rewrite Hrm, lookup_insert_ne, Eb by done. simpl.
      rewrite E3, Hrn1, lookup_delete_eq. simpl.
      rewrite lookup_insert_ne, lookup_delete_ne, lookup_delete_ne,
        lookup_insert_eq by done.
      rewrite Hrn2, lookup_insert_ne, lookup_delete_eq by done. simpl.
      f_equal. apply map_eq. intros k.
      destruct (decide (k = f)) as [->|Hkf]; [by rewrite !lookup_insert_eq|].
      rewrite !(lookup_insert_ne _ f) by done.
      destruct (decide (k = tmp)) as [->|Hkt].
      { by rewrite lookup_delete_eq, lookup_insert_ne, Hf. }
      rewrite lookup_delete_ne by done.
      destruct (decide (k = bak)) as [->|Hkb]; [by rewrite !lookup_insert_eq|].
      by rewrite !lookup_insert_ne, !lookup_delete_ne, lookup_insert_ne.
    + rewrite E4, Hrn1, lookup_insert_ne, Eb by done. simpl.
      rewrite lookup_insert_ne, lookup_delete_ne, lookup_insert_eq by done.
      rewrite Hrn2, lookup_insert_ne, lookup_delete_eq by done. simpl.
      f_equal. apply map_eq. intros k.
      destruct (decide (k = f)) as [->|Hkf]; [by rewrite !lookup_insert_eq|].
      rewrite !(lookup_insert_ne _ f) by done.
      destruct (decide (k = tmp)) as [->|Hkt].
      { by rewrite lookup_delete_eq, lookup_insert_ne, Hf. }
      rewrite lookup_delete_ne by done.
      destruct (decide (k = bak)) as [->|Hkb]; [by rewrite !lookup_insert_eq|].
      by rewrite !lookup_insert_ne, !lookup_delete_ne, lookup_insert_ne.
  - rewrite lookup_insert_eq, Hrn2, lookup_insert_ne, Ef by done. simpl.
    f_equal. rewrite delete_insert_eq. by rewrite delete_id.
Qed.

(** C1, as the code has it.  A save that succeeds does not clear the
    dirty flag: the registry it leaves is the sanitized one, whose flag
    is set when it was set before the save. *)
Theorem save_keeps_dirty_flag (s : AliasDict) (files : Files) :
  (save_dict enumerate MP_FILEOPS s files).2.1 = Ret tt →
  (save_dict enumerate MP_FILEOPS s files).1 =
    sanitize_contexts enumerate s ∧
  (modified s = true →
   modified (save_dict enumerate MP_FILEOPS s files).1 = true) ∧
  (modified (save_dict enumerate MP_FILEOPS s files).1 = false →
   modified s = false ∧ (save_dict enumerate MP_FILEOPS s files).1 = s).
Proof.
  intros _. change (save_dict enumerate MP_FILEOPS s files).1
    with (sanitize_contexts enumerate s).
  split; [done|]. split; [apply modified_sanitize_contexts|].
  unfold sanitize_contexts. by destruct (decide _).
Qed.

End SaveFacts.

Lemma save_keeps_dirty_flag_witness :
  (save_dict map_order reliable dirty_registry old_files).2.1 = Ret tt ∧
  (modified dirty_registry = true →
   modified (save_dict map_order reliable dirty_registry old_files).1 = true).
Proof.
  assert (H : (save_dict map_order reliable dirty_registry old_files).2.1
              = Ret tt) by reflexivity.
  split; [exact H|].
  exact (proj1 (proj2 (save_keeps_dirty_flag map_order reliable
                         dirty_registry old_files H))).
Defined.

(** C1, as stated, fails: this save succeeds, on a machine where nothing
    fails, and the dirty flag is set after it. *)
Lemma save_clears_dirty_counterexample :
  (save_dict map_order reliable dirty_registry old_files).2.1 = Ret tt ∧
  (save_dict map_order reliable dirty_registry old_files).2.2
    !! "aliases.json" = Some (DocObject (dict_json map_order dirty_registry)) ∧
  modified (save_dict map_order reliable dirty_registry old_files).1 ≠ false.
Proof.
  split_and!; [vm_compute; reflexivity..|vm_compute; discriminate].
Qed.

(** The save of [save_clears_dirty_counterexample] rotates the file that
    was there to the backup and leaves no temporary file. *)
Example save_rotates_backup :
  (save_dict map_order reliable dirty_registry old_files).2.2 =
    {[ "aliases.json" := DocObject (dict_json map_order dirty_registry);
       "aliases.json.bak" :=
         DocObject [("active-context", JString "work");
                    ("contexts", JObject [("work", JObject [])])] ]}.
Proof. vm_compute. reflexivity. Qed.

(** C2 at a failing input: on a machine where the temporary file cannot
    be opened, [save_dict] of a dirty registry returns without throwing
    and without writing; the target file is as it was, and so are the
    aliases that were to be saved. *)
Theorem save_temp_open_failure_is_silent :
  open_fails unopenable
    (temp_file_name unopenable (aliases_file dirty_registry)) = true ∧
  save_dict map_order unopenable dirty_registry old_files =
    (dirty_registry, (Ret tt, old_files)) ∧
  destructor map_order unopenable dirty_registry old_files [] =
    (old_files, []).
Proof. split_and!; vm_compute; reflexivity. Qed.

(** ** Further properties of the registry operations *)

Lemma get_alias_default (a : string) (s : AliasDict) :
  get_alias a s = default ∅ (aliases s !! active_context s) !! a.
Proof.
  unfold get_alias. destruct (aliases s !! active_context s); simpl; [done|].
  by rewrite lookup_empty.
Qed.

Lemma lookup_try_emplace {A : Type} (k k' : string) (v : A)
    (m : gmap string A) :
  (try_emplace k v m).1 !! k' =
    if decide (k = k') then Some (default v (m !! k)) else m !! k'.
Proof.
  unfold try_emplace. destruct (m !! k) as [x|] eqn:E; simpl.
  - destruct (decide (k = k')) as [<-|]; [done|done].
  - destruct (decide (k = k')) as [<-|].
    + by rewrite lookup_insert_eq.
    + by rewrite lookup_insert_ne.
Qed.

Lemma remove_alias_eq (a : string) (s : AliasDict) :
  remove_alias a s =
    (bool_decide (is_Some (get_alias a s)),
     mkAliasDict (active_context s)
       (<[active_context s :=
            delete a (default ∅ (aliases s !! active_context s))]>
          (aliases s))
       (modified s || bool_decide (is_Some (get_alias a s)))
       (aliases_file s)).
Proof.
  unfold remove_alias. rewrite subscript_lookup, get_alias_default.
  unfold erase.
  destruct (default ∅ (aliases s !! active_context s) !! a) as [d|] eqn:E.
  - rewrite bool_decide_eq_true_2 by done. simpl.
    rewrite insert_insert_eq, orb_true_r. done.
  - rewrite bool_decide_eq_false_2 by by intros [? ?]. simpl.
    rewrite insert_insert_eq, orb_false_r, delete_id by done. done.
Qed.

(** X1.  [set_active_context name] makes [name] the active context and
    makes sure that a context is bound to it: the one that was bound to it
    before, or an empty one.  No other context changes, the dirty flag
    keeps its value, and a second call with the same name changes
    nothing. *)
Theorem set_active_context_ensures (name : string) (s : AliasDict) :
  active_context (set_active_context name s) = name ∧
  aliases (set_active_context name s) !! name =
    Some (default ∅ (aliases s !! name)) ∧
  (∀ c, c ≠ name →
        aliases (set_active_context name s) !! c = aliases s !! c) ∧
  (∀ a, get_alias a (set_active_context name s) =
        default ∅ (aliases s !! name) !! a) ∧
  modified (set_active_context name s) = modified s ∧
  set_active_context name (set_active_context name s) =
    set_active_context name s.
Proof.
  assert (L : aliases (set_active_context name s) !! name =
              Some (default ∅ (aliases s !! name))).
  { unfold set_active_context. cbn [aliases].
    by rewrite lookup_try_emplace, decide_True. }
  split_and!; try done.
  - intros c Hc. unfold set_active_context. cbn [aliases].
    by rewrite lookup_try_emplace, decide_False.
  - intros a. rewrite get_alias_default.
    change (active_context (set_active_context name s)) with name.
    by rewrite L.
  - unfold set_active_context at 1. f_equal.
    unfold try_emplace at 1. by rewrite L.
Qed.

(** X2.  [exists_alias] and [get_alias] agree: the first is true exactly
    when the second returns a definition, also when no context is bound to
    the name of the active context. *)
Theorem exists_alias_iff_get_alias (a : string) (s : AliasDict) :
  exists_alias a s = true ↔ is_Some (get_alias a s).
Proof.
  unfold exists_alias, get_alias.
  destruct (aliases s !! active_context s) as [context|].
  - apply bool_decide_eq_true.
  - split; [done|]. by intros [? ?].
Qed.

(** X3.  [remove_alias a] on an alias of the active context returns true,
    sets the dirty flag and removes that alias alone: the other aliases of
    the active context and the other contexts are as they were. *)
Theorem remove_alias_present (a : string) (d : AliasDefinition)
    (s : AliasDict) :
  get_alias a s = Some d →
  (remove_alias a s).1 = true ∧
  get_alias a (remove_alias a s).2 = None ∧
  (∀ b, b ≠ a → get_alias b (remove_alias a s).2 = get_alias b s) ∧
  (∀ c, c ≠ active_context s →
        aliases (remove_alias a s).2 !! c = aliases s !! c) ∧
  modified (remove_alias a s).2 = true ∧
  active_context (remove_alias a s).2 = active_context s.
Proof.
  intros H. rewrite remove_alias_eq, H.
  rewrite bool_decide_eq_true_2 by done. cbn [fst snd].
  split_and!; try done.
  - rewrite get_alias_default. cbn [aliases active_context].
    rewrite lookup_insert_eq. simpl. by rewrite lookup_delete_eq.
  - intros b Hb. rewrite !get_alias_default. cbn [aliases active_context].
    rewrite lookup_insert_eq. simpl. by rewrite lookup_delete_ne.
  - intros c Hc. cbn [aliases]. by rewrite lookup_insert_ne.
  - cbn [modified]. by rewrite orb_true_r.
Qed.

Lemma remove_alias_present_witness :
  get_alias "ll" work_registry = Some ll_definition ∧
  (remove_alias "ll" work_registry).1 = true ∧
  get_alias "ll" (remove_alias "ll" work_registry).2 = None.
Proof.
  assert (H : get_alias "ll" work_registry = Some ll_definition)
    by reflexivity.
  split; [exact H|].
  destruct (remove_alias_present "ll" ll_definition work_registry H)
    as (H1 & H2 & _).
  exact (conj H1 H2).
Defined.

(** X4.  [remove_alias a] on a name that is not an alias of the active
    context returns false and keeps the dirty flag, every alias of the
    active context and every other context; when a context is bound to the
    name of the active context, the registry is unchanged. *)
Theorem remove_alias_absent (a : string) (s : AliasDict) :
  get_alias a s = None →
  (remove_alias a s).1 = false ∧
  modified (remove_alias a s).2 = modified s ∧
  (∀ b, get_alias b (remove_alias a s).2 = get_alias b s) ∧
  (∀ c, c ≠ active_context s →
        aliases (remove_alias a s).2 !! c = aliases s !! c) ∧
  (is_Some (aliases s !! active_context s) → (remove_alias a s).2 = s).
Proof.
  intros H. rewrite remove_alias_eq, H.
  rewrite bool_decide_eq_false_2 by by intros [? ?]. cbn [fst snd].
  rewrite get_alias_default in H. rewrite delete_id by done.
  split_and!; try done.
  - cbn [modified]. by rewrite orb_false_r.
  - intros b. rewrite !get_alias_default. cbn [aliases active_context].
    by rewrite lookup_insert_eq.
  - intros c Hc. cbn [aliases]. by rewrite lookup_insert_ne.
  - intros [context Hc]. rewrite Hc. simpl.
    rewrite insert_id, orb_false_r by done. by destruct s.
Qed.

Lemma remove_alias_absent_witness :
  get_alias "top" work_registry = None ∧
  (remove_alias "top" work_registry).1 = false ∧
  modified (remove_alias "top" work_registry).2 = modified work_registry.
Proof.
  assert (H : get_alias "top" work_registry = None) by reflexivity.
  split; [exact H|].
  destruct (remove_alias_absent "top" work_registry H) as (H1 & H2 & _).
  exact (conj H1 H2).
Defined.

(** X5.  Adding an alias that was not there and removing it again gives
    back every alias of the active context; the second call returns true.
    The map of contexts is the one before the two calls exactly when a
    context was bound to the name of the active context: otherwise an
    empty context stays bound to that name. *)
Theorem add_alias_then_remove_alias (a : string) (d : AliasDefinition)
    (s : AliasDict) :
  exists_alias a s = false →
  (remove_alias a (add_alias a d s).2).1 = true ∧
  (∀ b, get_alias b (remove_alias a (add_alias a d s).2).2 = get_alias b s) ∧
  (∀ c, c ≠ active_context s →
        aliases (remove_alias a (add_alias a d s).2).2 !! c =
        aliases s !! c) ∧
  (is_Some (aliases s !! active_context s) ↔
   aliases (remove_alias a (add_alias a d s).2).2 = aliases s) ∧
  (aliases s !! active_context s = None →
   aliases (remove_alias a (add_alias a d s).2).2 =
     <[active_context s := ∅]> (aliases s)).
Proof.
  intros H. rewrite (add_alias_fresh _ _ _ H). cbn [snd].
  apply exists_alias_false in H. rewrite remove_alias_eq.
  assert (G : get_alias a
    (set_modified true
       (set_aliases
          (<[active_context s :=
               <[a := d]> (default ∅ (aliases s !! active_context s))]>
             (aliases s)) s)) = Some d).
  { rewrite get_alias_default. cbn [aliases active_context set_modified
      set_aliases]. rewrite lookup_insert_eq. apply lookup_insert_eq. }
  rewrite G, bool_decide_eq_true_2 by done.
  cbn [fst snd aliases active_context set_modified set_aliases].
  rewrite lookup_insert_eq.
  change (default ∅ (Some (<[a:=d]>
            (default ∅ (aliases s !! active_context s)))))
    with (<[a:=d]> (default ∅ (aliases s !! active_context s))).
  rewrite insert_insert_eq, delete_insert_id by done.
  split_and!; try done.
  - intros b. rewrite !get_alias_default. cbn [aliases active_context].
    by rewrite lookup_insert_eq.
  - intros c Hc. by rewrite lookup_insert_ne.
  - split.
    + intros [context Hc]. rewrite Hc. simpl. by rewrite insert_id.
    + intros E.
      assert (L : aliases s !! active_context s =
                  Some (default ∅ (aliases s !! active_context s))).
      { rewrite <- E at 1. apply lookup_insert_eq. }
      by rewrite L.
  - by intros ->.
Qed.

Lemma add_alias_then_remove_alias_witness :
  exists_alias "top" work_registry = false ∧
  (remove_alias "top"
     (add_alias "top" ll_definition work_registry).2).1 = true ∧
  ∀ b, get_alias b (remove_alias "top"
                      (add_alias "top" ll_definition work_registry).2).2
       = get_alias b work_registry.
Proof.
  assert (H : exists_alias "top" work_registry = false) by reflexivity.
  split; [exact H|].
  destruct (add_alias_then_remove_alias "top" ll_definition work_registry H)
    as (H1 & H2 & _).
  exact (conj H1 H2).
Defined.

(** X6.  [remove_context c] returns true exactly when a context is bound
    to [c]; afterwards none is, the other contexts are as they were, and
    the dirty flag is set when a context was removed.  The name of the
    active context stays even when it is [c]: the registry then answers
    every query on aliases with absence. *)
Theorem remove_context_spec (c : string) (s : AliasDict) :
  (remove_context c s).1 = bool_decide (is_Some (aliases s !! c)) ∧
  aliases (remove_context c s).2 !! c = None ∧
  (∀ c', c' ≠ c → aliases (remove_context c s).2 !! c' = aliases s !! c') ∧
  modified (remove_context c s).2 =
    modified s || bool_decide (is_Some (aliases s !! c)) ∧
  active_context (remove_context c s).2 = active_context s ∧
  (c = active_context s →
   ∀ a, get_alias a (remove_context c s).2 = None ∧
        exists_alias a (remove_context c s).2 = false).
Proof.
  unfold remove_context, erase.
  destruct (aliases s !! c) as [context|] eqn:E; simpl.
  - rewrite orb_true_r. split_and!; try done.
    + apply lookup_delete_eq.
    + intros c' Hc. by apply lookup_delete_ne.
    + intros -> a. unfold get_alias, exists_alias. simpl.
      by rewrite lookup_delete_eq.
  - rewrite orb_false_r. split_and!; try done.
    intros -> a. unfold get_alias, exists_alias. simpl. by rewrite E.
Qed.

(** X7.  [clear] leaves no context, so that no alias can be looked up;
    the dirty flag is set when there was a context and keeps its value
    otherwise, and a second [clear] changes nothing. *)
Theorem clear_spec (s : AliasDict) :
  aliases (clear s) = ∅ ∧
  Container.empty (clear s) = true ∧
  Container.size (clear s) = 0 ∧
  (∀ a, get_alias a (clear s) = None) ∧
  modified (clear s) = modified s || negb (Container.empty s) ∧
  active_context (clear s) = active_context s ∧
  clear (clear s) = clear s.
Proof.
  assert (E : aliases (clear s) = ∅).
  { unfold clear. by destruct (decide (aliases s = ∅)). }
  split_and!.
  - done.
  - unfold Container.empty. by rewrite E, bool_decide_eq_true_2.
  - unfold Container.size. rewrite E. apply map_size_empty.
  - intros a. unfold get_alias. by rewrite E, lookup_empty.
  - unfold clear, Container.empty.
    destruct (decide (aliases s = ∅)) as [H|H]; simpl.
    + by rewrite bool_decide_eq_true_2, orb_false_r.
    + by rewrite bool_decide_eq_false_2, orb_true_r.
  - unfold clear. by destruct (decide (aliases s = ∅)).
  - unfold clear at 1. by rewrite decide_True.
Qed.

Lemma add_alias_frame (a : string) (d : AliasDefinition) (s : AliasDict)
    (c : string) :
  c ≠ active_context s →
  aliases (add_alias a d s).2 !! c = aliases s !! c.
Proof.
  intros Hc. unfold add_alias. rewrite subscript_lookup.
  destruct (try_emplace a d _) as [context' []]; simpl;
    by rewrite !lookup_insert_ne.
Qed.

Lemma active_context_add_alias (a : string) (d : AliasDefinition)
    (s : AliasDict) :
  active_context (add_alias a d s).2 = active_context s.
Proof.
  unfold add_alias. rewrite subscript_lookup.
  by destruct (try_emplace a d _) as [context' []].
Qed.

(** X8.  Contexts are isolated from each other: [add_alias] changes the
    active context only, so that an alias added while [c2] is active is
    not seen after a switch to another context [c1], whose aliases are
    the ones it had. *)
Theorem add_alias_other_context (a : string) (d : AliasDefinition)
    (c1 c2 : string) (s : AliasDict) :
  c1 ≠ c2 →
  (∀ c, c ≠ c2 →
        aliases (add_alias a d (set_active_context c2 s)).2 !! c =
        aliases s !! c) ∧
  (∀ b, get_alias b
          (set_active_context c1
             (add_alias a d (set_active_context c2 s)).2) =
        get_alias b (set_active_context c1 s)).
Proof.
  intros Hne.
  assert (F : ∀ c, c ≠ c2 →
            aliases (add_alias a d (set_active_context c2 s)).2 !! c =
            aliases s !! c).
  { intros c Hc. rewrite add_alias_frame by done.
    unfold set_active_context. cbn [aliases].
    by rewrite lookup_try_emplace, decide_False. }
  split; [done|]. intros b.
  rewrite !get_alias_default.
  change (active_context (set_active_context c1 ?x)) with c1.
  unfold set_active_context at 1 3. cbn [aliases].
  rewrite !lookup_try_emplace, !decide_True by done.
  by rewrite F.
Qed.

Lemma add_alias_other_context_witness :
  "home" ≠ "work" ∧
  ∀ b, get_alias b
         (set_active_context "home"
            (add_alias "ll" ll_definition
               (set_active_context "work" fresh_registry)).2) =
       get_alias b (set_active_context "home" fresh_registry).
Proof.
  assert (H : "home" ≠ "work") by discriminate.
  split; [exact H|].
  exact (proj2 (add_alias_other_context "ll" ll_definition "home" "work"
                  fresh_registry H)).
Defined.

(** X9.  [size()] counts contexts: switching to a name to which no
    context is bound adds one, switching to a name that has a context
    adds none, and adding an alias adds a context only when none is bound
    to the name of the active context. *)
Theorem size_counts_contexts (name a : string) (d : AliasDefinition)
    (s : AliasDict) :
  Container.size (set_active_context name s) =
    (if aliases s !! name is Some _ then Container.size s
     else S (Container.size s)) ∧
  Container.size (add_alias a d s).2 =
    (if aliases s !! active_context s is Some _ then Container.size s
     else S (Container.size s)) ∧
  (Container.empty s = true ↔ Container.size s = 0).
Proof.
  unfold Container.size, Container.empty. split_and!.
  - unfold set_active_context, try_emplace. cbn [aliases].
    destruct (aliases s !! name) eqn:E; simpl; [done|].
    by rewrite map_size_insert_None.
  - unfold add_alias, subscript.
    destruct (aliases s !! active_context s) as [context|] eqn:E.
    + destruct (try_emplace a d context) as [context' []]; simpl;
        by rewrite map_size_insert_Some.
    + destruct (try_emplace a d ∅) as [context' []]; simpl;
        by rewrite insert_insert_eq, map_size_insert_None.
  - rewrite bool_decide_eq_true. by rewrite map_size_empty_iff.
Qed.

Section FurtherTraversalFacts.

Variable enumerate : ∀ A : Type, gmap string A → list (string * A).
Hypothesis enumerate_perm :
  ∀ (A : Type) (m : gmap string A), enumerate A m ≡ₚ map_to_list m.

Lemma matching_nil_iff (i : string) (context : AliasContext) :
  matching i (enumerate _ context) = [] ↔
  ∀ a d, context !! a = Some d → instance d ≠ i.
Proof.
  split.
  - intros E a d Ha Hd.
    assert (Hin : a ∈ matching i (enumerate _ context))
      by (apply (elem_of_matching enumerate enumerate_perm); eauto).
    rewrite E in Hin. by apply not_elem_of_nil in Hin.
  - intros H. destruct (matching i (enumerate _ context)) as [|a l] eqn:E;
      [done|].
    assert (Hin : a ∈ matching i (enumerate _ context))
      by (rewrite E; left).
    apply (elem_of_matching enumerate enumerate_perm) in Hin
      as (d & Ha & Hd).
    by destruct (H a d Ha).
Qed.

(** X10.  [remove_aliases_for_instance] is idempotent: a second call for
    the same instance finds nothing to remove, returns no name and leaves
    the registry, its dirty flag included, as the first call left it. *)
Theorem remove_aliases_for_instance_twice (i : string) (s : AliasDict) :
  remove_aliases_for_instance enumerate i
    (remove_aliases_for_instance enumerate i s).2 =
    ([], (remove_aliases_for_instance enumerate i s).2).
Proof.
  rewrite (remove_aliases_for_instance_eq enumerate enumerate_perm i s).
  cbn [snd].
  set (context := default ∅ (aliases s !! active_context s)).
  set (rest := filter (λ it : string * AliasDefinition, instance it.2 ≠ i)
                      context).
  rewrite (remove_aliases_for_instance_eq enumerate enumerate_perm).
  cbn [aliases active_context modified aliases_file].
  rewrite lookup_insert_eq.
  change (default ∅ (Some rest)) with rest.
  assert (E : matching i (enumerate _ rest) = []).
  { apply matching_nil_iff. intros a d Ha.
    by apply map_lookup_filter_Some in Ha as [_ Ha]. }
  rewrite E. f_equal.
  rewrite (bool_decide_eq_false_2 ([] ≠ [])) by (intros H; by apply H).
  rewrite orb_false_r. f_equal.
  rewrite insert_insert_eq. f_equal.
  apply map_eq. intros a. rewrite map_lookup_filter.
  destruct (rest !! a) as [d|] eqn:Ha; simpl; [|done].
  apply map_lookup_filter_Some in Ha as [_ Ha].
  by rewrite option_guard_True.
Qed.

(** X11.  Sanitizing loses no alias: the registry has the same (context,
    alias, definition) triples before and after, and [get_alias] and
    [exists_alias] answer as before. *)
Theorem sanitize_contexts_keeps_aliases (s : AliasDict) :
  (∀ c a d, has_triple (sanitize_contexts enumerate s) c a d ↔
            has_triple s c a d) ∧
  (∀ a, get_alias a (sanitize_contexts enumerate s) = get_alias a s) ∧
  (∀ a, exists_alias a (sanitize_contexts enumerate s) = exists_alias a s).
Proof.
  assert (A : active_context (sanitize_contexts enumerate s)
              = active_context s).
  { unfold sanitize_contexts. by destruct (decide _). }
  assert (L : aliases (sanitize_contexts enumerate s) !! active_context s
              = aliases s !! active_context s).
  { rewrite (lookup_sanitize_contexts enumerate enumerate_perm).
    destruct (aliases s !! active_context s); [|done].
    rewrite decide_False; [done|]. tauto. }
  split_and!.
  - intros c a d. unfold has_triple.
    setoid_rewrite (lookup_sanitize_contexts enumerate enumerate_perm).
    split.
    + intros (context & Hc & Ha). exists context. split; [|done].
      destruct (aliases s !! c) as [context'|]; [|done].
      by case_decide.
    + intros (context & Hc & Ha). exists context. split; [|done].
      rewrite Hc. rewrite decide_False; [done|].
      intros [_ ->]. by rewrite lookup_empty in Ha.
  - intros a. unfold get_alias. by rewrite A, L.
  - intros a. unfold exists_alias. by rewrite A, L.
Qed.

(** X12.  After sanitizing, the only context that can be empty is the
    active one, and sanitizing again changes nothing. *)
Theorem sanitize_contexts_idempotent (s : AliasDict) :
  (∀ c, aliases (sanitize_contexts enumerate s) !! c = Some ∅ →
        c = active_context s) ∧
  sanitize_contexts enumerate (sanitize_contexts enumerate s) =
    sanitize_contexts enumerate s.
Proof.
  assert (A : active_context (sanitize_contexts enumerate s)
              = active_context s).
  { unfold sanitize_contexts. by destruct (decide _). }
  assert (N : ∀ c, aliases (sanitize_contexts enumerate s) !! c = Some ∅ →
                   c = active_context s).
  { intros c. rewrite (lookup_sanitize_contexts enumerate enumerate_perm).
    destruct (aliases s !! c) as [context|]; [|done].
    case_decide as H; [done|]. intros [= ->].
    destruct (decide (c = active_context s)); [done|]. destruct H. done. }
  split; [done|].
  unfold sanitize_contexts at 1.
  rewrite decide_True; [done|].
  destruct (empty_contexts_of enumerate (sanitize_contexts enumerate s))
    as [|c l] eqn:E; [done|].
  assert (Hin : c ∈ empty_contexts_of enumerate
                      (sanitize_contexts enumerate s)) by (rewrite E; left).
  apply (elem_of_empty_contexts enumerate enumerate_perm) in Hin
    as [H1 H2].
  rewrite A in H1. by apply N in H2.
Qed.

Lemma sanitize_contexts_subseteq (s : AliasDict) :
  aliases (sanitize_contexts enumerate s) ⊆ aliases s.
Proof.
  apply map_subseteq_spec. intros c context.
  rewrite (lookup_sanitize_contexts enumerate enumerate_perm).
  destruct (aliases s !! c) as [context'|]; [|done].
  by case_decide.
Qed.

End FurtherTraversalFacts.

Lemma remove_aliases_for_instance_twice_witness :
  (∀ (A : Type) (m : gmap string A), map_order A m ≡ₚ map_to_list m) ∧
  remove_aliases_for_instance map_order "vm1"
    (remove_aliases_for_instance map_order "vm1" work_registry).2 =
    ([], (remove_aliases_for_instance map_order "vm1" work_registry).2).
Proof.
  split; [exact map_order_perm|].
  exact (remove_aliases_for_instance_twice map_order map_order_perm
           "vm1" work_registry).
Defined.

Lemma sanitize_contexts_keeps_aliases_witness :
  (∀ (A : Type) (m : gmap string A), map_order A m ≡ₚ map_to_list m) ∧
  ∀ a, get_alias a (sanitize_contexts map_order work_registry) =
       get_alias a work_registry.
Proof.
  split; [exact map_order_perm|].
  exact (proj1 (proj2 (sanitize_contexts_keeps_aliases map_order
                         map_order_perm work_registry))).
Defined.

Lemma sanitize_contexts_idempotent_witness :
  (∀ (A : Type) (m : gmap string A), map_order A m ≡ₚ map_to_list m) ∧
  sanitize_contexts map_order (sanitize_contexts map_order work_registry) =
    sanitize_contexts map_order work_registry.
Proof.
  split; [exact map_order_perm|].
  exact (proj2 (sanitize_contexts_idempotent map_order map_order_perm
                  work_registry)).
Defined.

(** ** Further properties of the codec *)

Lemma for_each_Throw_inv {S A : Type} (body : S → A → result S)
    (l : list A) :
  ∀ s e, for_each body l s = Throw e → ∃ s' x, body s' x = Throw e.
Proof.
  induction l as [|y l IH]; intros s e; simpl; [done|].
  destruct (body s y) as [s'|e'] eqn:E; simpl.
  - apply IH.
  - intros [= <-]. eauto.
Qed.

Lemma not_all_valid (m : DictType) :
  ¬ all_valid m →
  ∃ c context a d,
    m !! c = Some context ∧ context !! a = Some d ∧
    ¬ valid_working_directory (working_directory d).
Proof.
  unfold all_valid. intros H.
  apply map_not_Forall in H as (c & context & Hc & H); [|apply _].
  apply map_not_Forall in H as (a & d & Ha & H); [|apply _].
  by exists c, context, a, d.
Qed.

Section FurtherSerializeFacts.

Variable enumerate : ∀ A : Type, gmap string A → list (string * A).
Hypothesis enumerate_perm :
  ∀ (A : Type) (m : gmap string A), enumerate A m ≡ₚ map_to_list m.

Lemma to_json_throws (s : AliasDict) (e : runtime_error) :
  to_json enumerate s = Throw e → invalid_directory_error e.
Proof.
  unfold to_json.
  destruct (for_each _ (enumerate _ (aliases s)) []) as [j|e'] eqn:E;
    simpl; [done|].
  intros [= <-].
  apply for_each_Throw_inv in E as (o & [c context] & E). simpl in E.
  destruct (context_to_json enumerate context) eqn:C; simpl in E; [done|].
  injection E as <-. by eapply context_to_json_throws.
Qed.

(** X13.  [to_json] returns a document exactly when every definition of
    the registry carries one of the two working directories; the only
    error it throws is the validation error, and the document it returns
    names the active context under the key active-context, as the
    conversion to [QString] gives it: unchanged when the conversion leaves
    the name as it is. *)
Theorem to_json_succeeds_iff_valid (s : AliasDict) :
  ((∃ document, to_json enumerate s = Ret document) ↔
   all_valid (aliases s)) ∧
  (∀ e, to_json enumerate s = Throw e → invalid_directory_error e) ∧
  (∀ document, to_json enumerate s = Ret document →
     obj_value "active-context" document
       = JString (json_text (active_context s)) ∧
     (lossless (active_context s) →
      obj_value "active-context" document = JString (active_context s)) ∧
     obj_isEmpty document = false).
Proof.
  assert (V : (∃ document, to_json enumerate s = Ret document) →
              all_valid (aliases s)).
  { intros [document Hd].
    destruct (decide (all_valid (aliases s))) as [|Hn]; [done|].
    apply not_all_valid in Hn as (c & context & a & d & Hc & Ha & Hv).
    destruct (to_json_invalid enumerate enumerate_perm s c a d)
      as (e & He & _); [by exists context|done|congruence]. }
  split_and!.
  - split; [done|]. intros Hv. eexists.
    by apply (to_json_valid enumerate enumerate_perm).
  - apply to_json_throws.
  - intros document Hd.
    rewrite (to_json_valid enumerate enumerate_perm) in Hd
      by (apply V; eauto).
    injection Hd as <-. split_and!; [done| |done].
    intros Hl. unfold dict_json, obj_value. cbn [obj_find].
    rewrite decide_True by done. cbn [default from_option id].
    by rewrite Hl.
Qed.

End FurtherSerializeFacts.

Lemma to_json_succeeds_iff_valid_witness :
  (∀ (A : Type) (m : gmap string A), map_order A m ≡ₚ map_to_list m) ∧
  ((∃ document, to_json map_order work_registry = Ret document) ↔
   all_valid (aliases work_registry)).
Proof.
  split; [exact map_order_perm|].
  exact (proj1 (to_json_succeeds_iff_valid map_order map_order_perm
                  work_registry)).
Defined.

(** ** Further properties of loading *)

Lemma load_contexts_throws (context_array : QJsonObject) :
  ∀ m e m',
    load_contexts context_array m = (Throw e, m') →
    invalid_directory_error e.
Proof.
  induction context_array as [|[name v] rest IH]; intros m e m'; simpl;
    [done|].
  destruct (records_to_context (toObject v) ∅) as [context|e'] eqn:E.
  - apply IH.
  - intros [= <- _]. by eapply records_to_context_throws.
Qed.

Lemma load_document_throws (doc : QJsonDocument) (s : AliasDict)
    (e : runtime_error) :
  (load_document doc s).1 = Throw e → invalid_directory_error e.
Proof.
  unfold load_document.
  destruct (doc_isNull doc); [done|].
  destruct (obj_isEmpty (doc_object doc)); [done|].
  destruct (obj_contains "active-context" (doc_object doc)).
  - destruct (obj_subscript "active-context" _) as [r records].
    destruct (obj_subscript "contexts" records) as [r' records'].
    destruct (load_contexts _ _) as [res m] eqn:E. simpl.
    intros ->. by eapply load_contexts_throws.
  - destruct (records_to_context _ ∅) eqn:E; simpl; [done|].
    intros [= <-]. by eapply records_to_context_throws.
Qed.

Lemma load_document_frame (doc : QJsonDocument) (s : AliasDict) :
  modified (load_document doc s).2 = modified s ∧
  aliases_file (load_document doc s).2 = aliases_file s.
Proof.
  unfold load_document.
  destruct (doc_isNull doc); [done|].
  destruct (obj_isEmpty (doc_object doc)); [done|].
  destruct (obj_contains "active-context" (doc_object doc)).
  - destruct (obj_subscript "active-context" _) as [r records].
    destruct (obj_subscript "contexts" records) as [r' records'].
    by destruct (load_contexts _ _) as [res m].
  - by destruct (records_to_context _ ∅).
Qed.

(** X14.  Where there is nothing to read, [load_dict] returns without an
    error and leaves a registry without contexts: the file is absent, or
    it opens and its bytes do not parse, parse to an array or parse to
    the empty object.  The contexts that the registry had are dropped;
    the active context, the dirty flag and the path stay. *)
Theorem load_dict_no_data (ops : FileOps) (files : Files) (s : AliasDict) :
  files !! aliases_file s = None ∨
  (∃ doc, files !! aliases_file s = Some doc ∧
          open_fails ops (aliases_file s) = false ∧
          doc_object doc = []) →
  load_dict ops files s = (Ret tt, set_aliases ∅ s).
Proof.
  intros [H | (doc & Hf & Ho & Hd)].
  - unfold load_dict. by rewrite H.
  - rewrite (load_dict_document _ _ _ _ Hf Ho). unfold load_document.
    destruct (doc_isNull doc); [done|]. by rewrite Hd.
Qed.

Lemma load_dict_no_data_witness :
  (({[ "aliases.json" := DocArray [JNull] ]} : Files)
     !! aliases_file work_registry = None ∨
   (∃ doc, ({[ "aliases.json" := DocArray [JNull] ]} : Files)
             !! aliases_file work_registry = Some doc ∧
           open_fails reliable (aliases_file work_registry) = false ∧
           doc_object doc = [])) ∧
  load_dict reliable {[ "aliases.json" := DocArray [JNull] ]} work_registry =
    (Ret tt, set_aliases ∅ work_registry).
Proof.
  assert (H : ({[ "aliases.json" := DocArray [JNull] ]} : Files)
                !! aliases_file work_registry = None ∨
    (∃ doc, ({[ "aliases.json" := DocArray [JNull] ]} : Files)
              !! aliases_file work_registry = Some doc ∧
            open_fails reliable (aliases_file work_registry) = false ∧
            doc_object doc = [])).
  { right. exists (DocArray [JNull]). split_and!; reflexivity. }
  split; [exact H|].
  exact (load_dict_no_data reliable {[ "aliases.json" := DocArray [JNull] ]}
           work_registry H).
Defined.

(** X15.  [load_dict] throws two errors only: the one for a file that is
    there and cannot be opened, and the validation error for a working
    directory that is not one of the two literals.  Whether it throws or
    returns, it keeps the dirty flag and the path of the registry. *)
Theorem load_dict_errors (ops : FileOps) (files : Files) (s : AliasDict) :
  (∀ e, (load_dict ops files s).1 = Throw e →
        e = error_opening_file (aliases_file s) ∧
        is_Some (files !! aliases_file s) ∧
        open_fails ops (aliases_file s) = true ∧
        aliases (load_dict ops files s).2 = ∅
        ∨ invalid_directory_error e) ∧
  (is_Some (files !! aliases_file s) →
   open_fails ops (aliases_file s) = true →
   load_dict ops files s =
     (Throw (error_opening_file (aliases_file s)), set_aliases ∅ s)) ∧
  modified (load_dict ops files s).2 = modified s ∧
  aliases_file (load_dict ops files s).2 = aliases_file s.
Proof.
  unfold load_dict, fileops_open_read, fileops_exists.
  destruct (files !! aliases_file s) as [doc|] eqn:Hf.
  - rewrite bool_decide_eq_true_2 by done.
    destruct (open_fails ops (aliases_file s)) eqn:Ho; simpl.
    + split_and!; try done. intros e [= <-]. left. done.
    + split_and!; try done.
      * intros e He. right. by eapply load_document_throws.
      * apply (load_document_frame doc (set_aliases ∅ s)).
      * apply (load_document_frame doc (set_aliases ∅ s)).
  - split_and!; done.
Qed.

Lemma obj_find_elem_of {A : Type} (k : string) (v : A)
    (o : list (string * A)) :
  obj_find k o = Some v → (k, v) ∈ o.
Proof.
  induction o as [|[k0 x] o IH]; simpl; [done|].
  destruct (decide (k0 = k)) as [->|].
  - intros [= ->]. left.
  - intros H. right. by apply IH.
Qed.

Lemma records_to_context_valid (records : QJsonObject)
    (context context' : AliasContext) :
  records_to_context records context = Ret context' →
  map_Forall (λ _ d, valid_working_directory (working_directory d)) context →
  map_Forall (λ _ d, valid_working_directory (working_directory d)) context'.
Proof.
  intros H Hv.
  pose proof (records_to_context_Ret _ _ _ H) as F.
  rewrite records_to_context_parsed in H by done. injection H as <-.
  intros a d. rewrite lookup_emplace_all.
  destruct (context !! a) as [d'|] eqn:E.
  - intros [= <-]. by apply (Hv a).
  - intros Hd%obj_find_elem_of.
    rewrite Forall_forall in F. by apply (F (a, d)).
Qed.

Lemma load_contexts_valid (context_array : QJsonObject) :
  ∀ m m', load_contexts context_array m = (Ret tt, m') →
          all_valid m → all_valid m'.
Proof.
  induction context_array as [|[name v] rest IH]; intros m m'; simpl.
  - by intros [= <-].
  - destruct (records_to_context (toObject v) ∅) as [context|e] eqn:E;
      [|done].
    intros H Hv. apply (IH _ _ H).
    intros c context'. rewrite lookup_try_emplace.
    destruct (decide (name = c)) as [<-|]; [|apply Hv].
    destruct (m !! name) as [old|] eqn:Em; simpl; intros [= <-].
    + by apply (Hv name).
    + apply (records_to_context_valid _ _ _ E). apply map_Forall_empty.
Qed.

Lemma load_document_valid (doc : QJsonDocument) (s : AliasDict) :
  (load_document doc s).1 = Ret tt →
  all_valid (aliases s) → all_valid (aliases (load_document doc s).2).
Proof.
  unfold load_document.
  destruct (doc_isNull doc); [done|].
  destruct (obj_isEmpty (doc_object doc)); [done|].
  destruct (obj_contains "active-context" (doc_object doc)).
  - destruct (obj_subscript "active-context" _) as [r records].
    destruct (obj_subscript "contexts" records) as [r' records'].
    destruct (load_contexts _ _) as [res m] eqn:E. simpl.
    intros -> Hv. by apply (load_contexts_valid _ _ _ E).
  - destruct (records_to_context _ ∅) as [context|] eqn:E; simpl; [|done].
    intros _ Hv c context'. rewrite lookup_try_emplace.
    destruct (decide ("default" = c)) as [<-|]; [|apply Hv].
    destruct (aliases s !! "default") as [old|] eqn:Em; simpl; intros [= <-].
    + by apply (Hv "default").
    + apply (records_to_context_valid _ _ _ E). apply map_Forall_empty.
Qed.

Section LoadThenSerialize.

Variable enumerate : ∀ A : Type, gmap string A → list (string * A).
Hypothesis enumerate_perm :
  ∀ (A : Type) (m : gmap string A), enumerate A m ≡ₚ map_to_list m.

(** X16.  What [load_dict] loads can be saved: when it returns, every
    definition of the registry carries a valid working directory, whatever
    the file held and whatever the registry held before, so that [to_json]
    of the loaded registry returns a document. *)
Theorem load_dict_then_to_json (ops : FileOps) (files : Files)
    (s : AliasDict) :
  (load_dict ops files s).1 = Ret tt →
  all_valid (aliases (load_dict ops files s).2) ∧
  to_json enumerate (load_dict ops files s).2 =
    Ret (dict_json enumerate (load_dict ops files s).2).
Proof.
  intros H.
  assert (V : all_valid (aliases (load_dict ops files s).2)).
  { revert H. unfold load_dict.
    destruct (files !! aliases_file s) as [doc|].
    - destruct (negb _); [done|]. intros H.
      apply load_document_valid; [done|]. apply map_Forall_empty.
    - intros _. apply map_Forall_empty. }
  split; [done|]. by apply to_json_valid.
Qed.

End LoadThenSerialize.

Lemma load_dict_then_to_json_witness :
  (∀ (A : Type) (m : gmap string A), map_order A m ≡ₚ map_to_list m) ∧
  (load_dict reliable {[ "aliases.json" := DocObject legacy_records ]}
             initial_registry).1 = Ret tt ∧
  all_valid
    (aliases
       (load_dict reliable {[ "aliases.json" := DocObject legacy_records ]}
                  initial_registry).2).
Proof.
  split; [exact map_order_perm|].
  assert (H : (load_dict reliable
                 {[ "aliases.json" := DocObject legacy_records ]}
                 initial_registry).1 = Ret tt) by reflexivity.
  split; [exact H|].
  exact (proj1 (load_dict_then_to_json map_order map_order_perm reliable
                  {[ "aliases.json" := DocObject legacy_records ]}
                  initial_registry H)).
Defined.

(** X17.  A file in the new format whose value for contexts is absent or
    is not an object that has entries loads without an error into a
    registry without contexts; the active context is the string under
    active-context, or the empty string when that value is not a
    string. *)
Theorem load_new_format_without_contexts (ops : FileOps) (files : Files)
    (s : AliasDict) (records : QJsonObject) :
  files !! aliases_file s = Some (DocObject records) →
  open_fails ops (aliases_file s) = false →
  obj_contains "active-context" records = true →
  toObject (obj_value "contexts" records) = [] →
  load_dict ops files s =
    (Ret tt,
     mkAliasDict (toString (obj_value "active-context" records)) ∅
                 (modified s) (aliases_file s)).
Proof.
  intros Hf Ho Hc Hx. rewrite (load_dict_document _ _ _ _ Hf Ho).
  unfold load_document. cbn [doc_isNull doc_object].
  assert (Hne : obj_isEmpty records = false).
  { destruct records; [done|done]. }
  rewrite Hne, Hc.
  unfold obj_contains in Hc. unfold obj_subscript at 1, obj_value at 1.
  destruct (obj_find "active-context" records) as [v|] eqn:E; [|done].
  cbn [default from_option id].
  assert (Hx' : toObject (obj_subscript "contexts" records).1 = []).
  { unfold obj_subscript. unfold obj_value in Hx.
    by destruct (obj_find "contexts" records). }
  destruct (obj_subscript "contexts" records) as [r records'].
  cbn [fst] in Hx'. by rewrite Hx'.
Qed.

Lemma load_new_format_without_contexts_witness :
  ({[ "aliases.json" := DocObject [("active-context", JString "work")] ]}
     : Files) !! aliases_file initial_registry
    = Some (DocObject [("active-context", JString "work")]) ∧
  open_fails reliable (aliases_file initial_registry) = false ∧
  obj_contains "active-context" [("active-context", JString "work")] = true ∧
  toObject (obj_value "contexts" [("active-context", JString "work")]) = [] ∧
  load_dict reliable
    {[ "aliases.json" := DocObject [("active-context", JString "work")] ]}
    initial_registry =
    (Ret tt,
     mkAliasDict
       (toString (obj_value "active-context"
                    [("active-context", JString "work")])) ∅
       (modified initial_registry) (aliases_file initial_registry)).
Proof.
  split_and!; [reflexivity..|].
  exact (load_new_format_without_contexts reliable
           {[ "aliases.json" := DocObject [("active-context", JString "work")] ]}
           initial_registry [("active-context", JString "work")]
           eq_refl eq_refl eq_refl eq_refl).
Defined.

(** ** Further properties of saving *)

Ltac save_dict_until_written Hj Hc Ho Hf Hw :=
  unfold save_dict; cbn [snd]; rewrite aliases_file_sanitize_contexts;
  unfold mbind, M_bind, bind, lift, gets, create_temp_file_with_path,
    fileops_open_temp, write_json, fileops_exists;
  rewrite Hj, Hc; cbn [mret M_ret ret]; rewrite Ho, Hf; simpl;
  rewrite Hw, insert_insert_eq; unfold fileops_remove, fileops_rename.

Section FurtherSaveFacts.

Variable enumerate : ∀ A : Type, gmap string A → list (string * A).
Hypothesis enumerate_perm :
  ∀ (A : Type) (m : gmap string A), enumerate A m ≡ₚ map_to_list m.
Variable MP_FILEOPS : FileOps.

Lemma all_valid_sanitize_contexts (s : AliasDict) :
  all_valid (aliases s) → all_valid (aliases (sanitize_contexts enumerate s)).
Proof.
  intros Hv c context.
  rewrite (lookup_sanitize_contexts enumerate enumerate_perm).
  destruct (aliases s !! c) as [context'|] eqn:E; [|done].
  case_decide; [done|]. intros [= <-]. by apply (Hv c).
Qed.

Lemma all_lossless_sanitize_contexts (s : AliasDict) :
  all_lossless s → all_lossless (sanitize_contexts enumerate s).
Proof.
  intros [Ha Hl]. split.
  - unfold sanitize_contexts. by destruct (decide _).
  - intros c context.
    rewrite (lookup_sanitize_contexts enumerate enumerate_perm).
    destruct (aliases s !! c) as [context'|] eqn:E; [|done].
    case_decide; [done|]. intros [= <-]. by apply (Hl c).
Qed.

Lemma active_context_sanitize_contexts (s : AliasDict) :
  active_context (sanitize_contexts enumerate s) = active_context s.
Proof. unfold sanitize_contexts. by destruct (decide _). Qed.

(** X18.  A save on which nothing fails returns and rotates the files:
    the target holds the new document, the backup holds what the target
    held before (and is untouched when there was no target), the
    temporary file is gone, and every other file is as it was. *)
Theorem save_dict_rotates_files (s : AliasDict) (files : Files)
    (document : QJsonObject) :
  to_json enumerate (sanitize_contexts enumerate s) = Ret document →
  create_temp_fails MP_FILEOPS (aliases_file s) = false →
  open_fails MP_FILEOPS (temp_file_name MP_FILEOPS (aliases_file s))
    = false →
  files !! temp_file_name MP_FILEOPS (aliases_file s) = None →
  write_fails MP_FILEOPS (temp_file_name MP_FILEOPS (aliases_file s))
    = false →
  temp_file_name MP_FILEOPS (aliases_file s) ≠ aliases_file s →
  temp_file_name MP_FILEOPS (aliases_file s) ≠ aliases_file s +:+ ".bak" →
  remove_fails MP_FILEOPS (aliases_file s +:+ ".bak") = false →
  rename_fails MP_FILEOPS (aliases_file s) (aliases_file s +:+ ".bak")
    = false →
  rename_fails MP_FILEOPS (temp_file_name MP_FILEOPS (aliases_file s))
               (aliases_file s) = false →
  (save_dict enumerate MP_FILEOPS s files).2.1 = Ret tt ∧
  (save_dict enumerate MP_FILEOPS s files).2.2 !! aliases_file s =
    Some (DocObject document) ∧
  (save_dict enumerate MP_FILEOPS s files).2.2
    !! (aliases_file s +:+ ".bak") =
    match files !! aliases_file s with
    | Some old => Some old
    | None => files !! (aliases_file s +:+ ".bak")
    end ∧
  (save_dict enumerate MP_FILEOPS s files).2.2
    !! temp_file_name MP_FILEOPS (aliases_file s) = None ∧
  (∀ name, name ≠ aliases_file s → name ≠ aliases_file s +:+ ".bak" →
     (save_dict enumerate MP_FILEOPS s files).2.2 !! name = files !! name).
Proof.
  intros Hj Hc Ho Hf Hw Hne1 Hne2 Hrm Hrn1 Hrn2.
  rewrite (save_dict_success enumerate MP_FILEOPS s files document)
    by done.
  pose proof (append_bak_ne (aliases_file s)) as Hfb. cbn [fst snd].
  split_and!.
  - done.
  - apply lookup_insert_eq.
  - rewrite lookup_insert_ne by done.
    destruct (files !! aliases_file s); [|done]. apply lookup_insert_eq.
  - rewrite lookup_insert_ne by done.
    destruct (files !! aliases_file s); [|done].
    by rewrite lookup_insert_ne.
  - intros name H1 H2. rewrite lookup_insert_ne by done.
    destruct (files !! aliases_file s); [|done].
    by rewrite lookup_insert_ne.
Qed.

(** X19.  Saving and loading again, on a machine on which nothing fails:
    when every definition carries a valid working directory and the
    strings of the registry are ones that the conversion to [QString] and
    back leaves as they are, [load_dict] from the files that [save_dict]
    leaves returns and gives the active context and the contexts of the
    sanitized registry, so that every alias of the active context is
    found again. *)
Theorem save_dict_then_load_dict (s s0 : AliasDict) (files : Files) :
  all_valid (aliases s) →
  all_lossless s →
  aliases_file s0 = aliases_file s →
  create_temp_fails MP_FILEOPS (aliases_file s) = false →
  open_fails MP_FILEOPS (temp_file_name MP_FILEOPS (aliases_file s))
    = false →
  open_fails MP_FILEOPS (aliases_file s) = false →
  files !! temp_file_name MP_FILEOPS (aliases_file s) = None →
  write_fails MP_FILEOPS (temp_file_name MP_FILEOPS (aliases_file s))
    = false →
  temp_file_name MP_FILEOPS (aliases_file s) ≠ aliases_file s →
  temp_file_name MP_FILEOPS (aliases_file s) ≠ aliases_file s +:+ ".bak" →
  remove_fails MP_FILEOPS (aliases_file s +:+ ".bak") = false →
  rename_fails MP_FILEOPS (aliases_file s) (aliases_file s +:+ ".bak")
    = false →
  rename_fails MP_FILEOPS (temp_file_name MP_FILEOPS (aliases_file s))
               (aliases_file s) = false →
  (save_dict enumerate MP_FILEOPS s files).2.1 = Ret tt ∧
  (load_dict MP_FILEOPS (save_dict enumerate MP_FILEOPS s files).2.2 s0).1
    = Ret tt ∧
  active_context
    (load_dict MP_FILEOPS (save_dict enumerate MP_FILEOPS s files).2.2 s0).2
    = active_context s ∧
  aliases
    (load_dict MP_FILEOPS (save_dict enumerate MP_FILEOPS s files).2.2 s0).2
    = aliases (sanitize_contexts enumerate s) ∧
  (∀ a, get_alias a
          (load_dict MP_FILEOPS
             (save_dict enumerate MP_FILEOPS s files).2.2 s0).2
        = get_alias a s).
Proof.
  intros Hv Hl Hs0 Hc Ho Hor Hf Hw Hne1 Hne2 Hrm Hrn1 Hrn2.
  pose proof (all_valid_sanitize_contexts s Hv) as Hv'.
  pose proof (all_lossless_sanitize_contexts s Hl) as Hl'.
  pose proof (to_json_valid enumerate enumerate_perm _ Hv') as Hj.
  rewrite (save_dict_success enumerate MP_FILEOPS s files _ Hj)
    by done.
  cbn [fst snd].
  erewrite load_dict_document;
    [|rewrite Hs0; apply lookup_insert_eq|by rewrite Hs0].
  rewrite (load_document_dict_json enumerate enumerate_perm) by done.
  cbn [fst snd aliases active_context].
  rewrite active_context_sanitize_contexts.
  split_and!; try done.
  intros a. unfold get_alias. cbn [aliases active_context].
  rewrite (lookup_sanitize_contexts enumerate enumerate_perm).
  destruct (aliases s !! active_context s) as [context|]; [|done].
  rewrite decide_False; [done|]. tauto.
Qed.

(** X20.  The old backup cannot be removed: [save_dict] throws, the
    target and the backup are as they were, and the temporary file stays
    behind with the new document. *)
Theorem save_dict_backup_not_removed (s : AliasDict) (files : Files)
    (document : QJsonObject) (old older : QJsonDocument) :
  to_json enumerate (sanitize_contexts enumerate s) = Ret document →
  create_temp_fails MP_FILEOPS (aliases_file s) = false →
  open_fails MP_FILEOPS (temp_file_name MP_FILEOPS (aliases_file s))
    = false →
  files !! temp_file_name MP_FILEOPS (aliases_file s) = None →
  write_fails MP_FILEOPS (temp_file_name MP_FILEOPS (aliases_file s))
    = false →
  files !! aliases_file s = Some old →
  files !! (aliases_file s +:+ ".bak") = Some older →
  remove_fails MP_FILEOPS (aliases_file s +:+ ".bak") = true →
  (save_dict enumerate MP_FILEOPS s files).2 =
    (Throw (cannot_remove_backup (aliases_file s +:+ ".bak")),
     <[temp_file_name MP_FILEOPS (aliases_file s) := DocObject document]>
       files).
Proof.
  intros Hj Hc Ho Hf Hw Hold Holder Hrm.
  assert (Hne1 : temp_file_name MP_FILEOPS (aliases_file s) ≠ aliases_file s)
    by congruence.
  assert (Hne2 : temp_file_name MP_FILEOPS (aliases_file s)
                 ≠ aliases_file s +:+ ".bak") by congruence.
  save_dict_until_written Hj Hc Ho Hf Hw.
  rewrite lookup_insert_ne, Hold by done. simpl.
  rewrite lookup_insert_ne, Holder by done. simpl.
  by rewrite Hrm.
Qed.

(** X21.  The target cannot be renamed to the backup: [save_dict] throws
    and the target is as it was, but the old backup, if there was one,
    has been removed already; the temporary file stays behind. *)
Theorem save_dict_target_not_rotated (s : AliasDict) (files : Files)
    (document : QJsonObject) (old : QJsonDocument) :
  to_json enumerate (sanitize_contexts enumerate s) = Ret document →
  create_temp_fails MP_FILEOPS (aliases_file s) = false →
  open_fails MP_FILEOPS (temp_file_name MP_FILEOPS (aliases_file s))
    = false →
  files !! temp_file_name MP_FILEOPS (aliases_file s) = None →
  write_fails MP_FILEOPS (temp_file_name MP_FILEOPS (aliases_file s))
    = false →
  temp_file_name MP_FILEOPS (aliases_file s) ≠ aliases_file s +:+ ".bak" →
  files !! aliases_file s = Some old →
  remove_fails MP_FILEOPS (aliases_file s +:+ ".bak") = false →
  rename_fails MP_FILEOPS (aliases_file s) (aliases_file s +:+ ".bak")
    = true →
  (save_dict enumerate MP_FILEOPS s files).2 =
    (Throw (cannot_rename_config (aliases_file s +:+ ".bak")),
     delete (aliases_file s +:+ ".bak")
       (<[temp_file_name MP_FILEOPS (aliases_file s) := DocObject document]>
          files)).
Proof.
  intros Hj Hc Ho Hf Hw Hne2 Hold Hrm Hrn.
  assert (Hne1 : temp_file_name MP_FILEOPS (aliases_file s) ≠ aliases_file s)
    by congruence.
  pose proof (append_bak_ne (aliases_file s)) as Hfb.
  save_dict_until_written Hj Hc Ho Hf Hw.
  rewrite lookup_insert_ne, Hold by done. simpl.
  rewrite lookup_insert_ne by done.
  destruct (files !! (aliases_file s +:+ ".bak")) as [older|] eqn:Eb; simpl.
  - rewrite Hrm, lookup_insert_ne, Eb by done. simpl.
    rewrite lookup_delete_ne, lookup_insert_ne, Hold, Hrn by done. done.
  - rewrite lookup_insert_ne, Hold, Hrn by done. simpl.
    by rewrite delete_id by by rewrite lookup_insert_ne.
Qed.

(** X22.  The temporary file cannot be renamed to the target: [save_dict]
    throws after the rotation, so that no file is left under the name of
    the target; what it held is the backup, and the new document is in
    the temporary file. *)
Theorem save_dict_target_not_created (s : AliasDict) (files : Files)
    (document : QJsonObject) (old : QJsonDocument) :
  to_json enumerate (sanitize_contexts enumerate s) = Ret document →
  create_temp_fails MP_FILEOPS (aliases_file s) = false →
  open_fails MP_FILEOPS (temp_file_name MP_FILEOPS (aliases_file s))
    = false →
  files !! temp_file_name MP_FILEOPS (aliases_file s) = None →
  write_fails MP_FILEOPS (temp_file_name MP_FILEOPS (aliases_file s))
    = false →
  temp_file_name MP_FILEOPS (aliases_file s) ≠ aliases_file s +:+ ".bak" →
  files !! aliases_file s = Some old →
  remove_fails MP_FILEOPS (aliases_file s +:+ ".bak") = false →
  rename_fails MP_FILEOPS (aliases_file s) (aliases_file s +:+ ".bak")
    = false →
  rename_fails MP_FILEOPS (temp_file_name MP_FILEOPS (aliases_file s))
               (aliases_file s) = true →
  (save_dict enumerate MP_FILEOPS s files).2.1 =
    Throw (cannot_create_config (aliases_file s)) ∧
  (save_dict enumerate MP_FILEOPS s files).2.2 !! aliases_file s = None ∧
  (save_dict enumerate MP_FILEOPS s files).2.2
    !! (aliases_file s +:+ ".bak") = Some old ∧
  (save_dict enumerate MP_FILEOPS s files).2.2
    !! temp_file_name MP_FILEOPS (aliases_file s)
    = Some (DocObject document).
Proof.
  intros Hj Hc Ho Hf Hw Hne2 Hold Hrm Hrn1 Hrn2.
  assert (Hne1 : temp_file_name MP_FILEOPS (aliases_file s) ≠ aliases_file s)
    by congruence.
  pose proof (append_bak_ne (aliases_file s)) as Hfb.
  save_dict_until_written Hj Hc Ho Hf Hw.
  rewrite lookup_insert_ne, Hold by done. simpl.
  rewrite lookup_insert_ne by done.
  destruct (files !! (aliases_file s +:+ ".bak")) as [older|] eqn:Eb; simpl.
  - rewrite Hrm, lookup_insert_ne, Eb by done. simpl.
    rewrite lookup_delete_ne, lookup_insert_ne, Hold, Hrn1 by done.
    rewrite lookup_delete_eq. simpl.
    rewrite lookup_insert_ne, lookup_delete_ne, lookup_delete_ne,
      lookup_insert_eq, Hrn2 by done. simpl.
    split_and!; [done|..].
    + by rewrite lookup_insert_ne, lookup_delete_eq.
    + by rewrite lookup_insert_eq.
    + by rewrite lookup_insert_ne, !lookup_delete_ne, lookup_insert_eq.
  - rewrite lookup_insert_ne, Hold, Hrn1 by done.
    rewrite lookup_insert_ne, Eb by done. simpl.
    rewrite lookup_insert_ne, lookup_delete_ne, lookup_insert_eq, Hrn2
      by done. simpl.
    split_and!; [done|..].
    + by rewrite lookup_insert_ne, lookup_delete_eq.
    + by rewrite lookup_insert_eq.
    + by rewrite lookup_insert_ne, lookup_delete_ne, lookup_insert_eq.
Qed.

End FurtherSaveFacts.

Lemma dirty_registry_to_json :
  to_json map_order (sanitize_contexts map_order dirty_registry) =
    Ret (dict_json map_order dirty_registry).
Proof. vm_compute. reflexivity. Defined.

Lemma temp_name_not_target : "aliases.json.XXXXXX" ≠ "aliases.json".
Proof. discriminate. Defined.

Lemma temp_name_not_backup : "aliases.json.XXXXXX" ≠ "aliases.json.bak".
Proof. discriminate. Defined.

Lemma save_dict_rotates_files_witness :
  to_json map_order (sanitize_contexts map_order dirty_registry) =
    Ret (dict_json map_order dirty_registry) ∧
  create_temp_fails reliable (aliases_file dirty_registry) = false ∧
  open_fails reliable (temp_file_name reliable (aliases_file dirty_registry))
    = false ∧
  old_files !! temp_file_name reliable (aliases_file dirty_registry) = None ∧
  write_fails reliable (temp_file_name reliable (aliases_file dirty_registry))
    = false ∧
  temp_file_name reliable (aliases_file dirty_registry)
    ≠ aliases_file dirty_registry ∧
  temp_file_name reliable (aliases_file dirty_registry)
    ≠ aliases_file dirty_registry +:+ ".bak" ∧
  remove_fails reliable (aliases_file dirty_registry +:+ ".bak") = false ∧
  rename_fails reliable (aliases_file dirty_registry)
               (aliases_file dirty_registry +:+ ".bak") = false ∧
  rename_fails reliable
               (temp_file_name reliable (aliases_file dirty_registry))
               (aliases_file dirty_registry) = false ∧
  (save_dict map_order reliable dirty_registry old_files).2.1 = Ret tt ∧
  (save_dict map_order reliable dirty_registry old_files).2.2
    !! aliases_file dirty_registry =
    Some (DocObject (dict_json map_order dirty_registry)).
Proof.
  split_and!;
    [exact dirty_registry_to_json | reflexivity | reflexivity | reflexivity
    | reflexivity | exact temp_name_not_target | exact temp_name_not_backup
    | reflexivity | reflexivity | reflexivity | | ].
  - exact (proj1 (save_dict_rotates_files map_order reliable dirty_registry
                    old_files _ dirty_registry_to_json eq_refl eq_refl
                    eq_refl eq_refl temp_name_not_target
                    temp_name_not_backup eq_refl eq_refl eq_refl)).
  - exact (proj1 (proj2 (save_dict_rotates_files map_order reliable
                    dirty_registry old_files _ dirty_registry_to_json
                    eq_refl eq_refl eq_refl eq_refl temp_name_not_target
                    temp_name_not_backup eq_refl eq_refl eq_refl))).
Defined.

Lemma dirty_registry_valid : all_valid (aliases dirty_registry).
Proof.
  refine (bool_decide_unpack (all_valid (aliases dirty_registry)) _).
  vm_compute. exact I.
Defined.

Lemma dirty_registry_lossless : all_lossless dirty_registry.
Proof.
  refine (bool_decide_unpack (all_lossless dirty_registry) _).
  vm_compute. exact I.
Defined.

Lemma save_dict_then_load_dict_witness :
  (∀ (A : Type) (m : gmap string A), map_order A m ≡ₚ map_to_list m) ∧
  all_valid (aliases dirty_registry) ∧
  all_lossless dirty_registry ∧
  aliases_file initial_registry = aliases_file dirty_registry ∧
  old_files !! temp_file_name reliable (aliases_file dirty_registry) = None ∧
  temp_file_name reliable (aliases_file dirty_registry)
    ≠ aliases_file dirty_registry ∧
  temp_file_name reliable (aliases_file dirty_registry)
    ≠ aliases_file dirty_registry +:+ ".bak" ∧
  ∀ a, get_alias a
         (load_dict reliable
            (save_dict map_order reliable dirty_registry old_files).2.2
            initial_registry).2
       = get_alias a dirty_registry.
Proof.
  split_and!;
    [exact map_order_perm | exact dirty_registry_valid
    | exact dirty_registry_lossless | reflexivity
    | reflexivity | exact temp_name_not_target | exact temp_name_not_backup
    | ].
  exact (proj2 (proj2 (proj2 (proj2
    (save_dict_then_load_dict map_order map_order_perm reliable
       dirty_registry initial_registry old_files dirty_registry_valid
       dirty_registry_lossless eq_refl eq_refl eq_refl eq_refl eq_refl eq_refl
       temp_name_not_target temp_name_not_backup
       eq_refl eq_refl eq_refl))))).
Defined.

Lemma save_dict_backup_not_removed_witness :
  to_json map_order (sanitize_contexts map_order dirty_registry) =
    Ret (dict_json map_order dirty_registry) ∧
  backed_up_files !! temp_file_name no_remove (aliases_file dirty_registry)
    = None ∧
  backed_up_files !! (aliases_file dirty_registry +:+ ".bak")
    = Some DocNull ∧
  remove_fails no_remove (aliases_file dirty_registry +:+ ".bak") = true ∧
  (save_dict map_order no_remove dirty_registry backed_up_files).2 =
    (Throw (cannot_remove_backup (aliases_file dirty_registry +:+ ".bak")),
     <[temp_file_name no_remove (aliases_file dirty_registry) :=
         DocObject (dict_json map_order dirty_registry)]> backed_up_files).
Proof.
  split_and!;
    [exact dirty_registry_to_json | reflexivity | reflexivity | reflexivity
    | ].
  exact (save_dict_backup_not_removed map_order no_remove dirty_registry
           backed_up_files _ _ DocNull dirty_registry_to_json
           eq_refl eq_refl eq_refl eq_refl eq_refl eq_refl eq_refl).
Defined.

Lemma save_dict_target_not_rotated_witness :
  to_json map_order (sanitize_contexts map_order dirty_registry) =
    Ret (dict_json map_order dirty_registry) ∧
  rename_fails no_rename_to_backup (aliases_file dirty_registry)
               (aliases_file dirty_registry +:+ ".bak") = true ∧
  (save_dict map_order no_rename_to_backup dirty_registry
             backed_up_files).2.1 =
    Throw (cannot_rename_config (aliases_file dirty_registry +:+ ".bak")) ∧
  (save_dict map_order no_rename_to_backup dirty_registry
             backed_up_files).2.2 !! "aliases.json.bak" = None.
Proof.
  assert (H := save_dict_target_not_rotated map_order no_rename_to_backup
                 dirty_registry backed_up_files _ _ dirty_registry_to_json
                 eq_refl eq_refl eq_refl eq_refl temp_name_not_backup
                 eq_refl eq_refl eq_refl).
  split_and!; [exact dirty_registry_to_json | reflexivity | | ].
  - exact (f_equal fst H).
  - rewrite H. reflexivity.
Defined.

Lemma save_dict_target_not_created_witness :
  to_json map_order (sanitize_contexts map_order dirty_registry) =
    Ret (dict_json map_order dirty_registry) ∧
  rename_fails no_rename_to_target
               (temp_file_name no_rename_to_target
                               (aliases_file dirty_registry))
               (aliases_file dirty_registry) = true ∧
  (save_dict map_order no_rename_to_target dirty_registry old_files).2.1 =
    Throw (cannot_create_config (aliases_file dirty_registry)) ∧
  (save_dict map_order no_rename_to_target dirty_registry old_files).2.2
    !! aliases_file dirty_registry = None.
Proof.
  destruct (save_dict_target_not_created map_order no_rename_to_target
              dirty_registry old_files _ _ dirty_registry_to_json
              eq_refl eq_refl eq_refl eq_refl temp_name_not_backup
              eq_refl eq_refl eq_refl eq_refl) as (H1 & H2 & _).
  split_and!; [exact dirty_registry_to_json | reflexivity | exact H1
              | exact H2].
Defined.

(** ** Construction and destruction *)

Section TeardownFacts.

Variable enumerate : ∀ A : Type, gmap string A → list (string * A).
Hypothesis enumerate_perm :
  ∀ (A : Type) (m : gmap string A), enumerate A m ≡ₚ map_to_list m.
Variable MP_FILEOPS : FileOps.

Lemma save_dict_invalid (s : AliasDict) (files : Files) (c a : string)
    (d : AliasDefinition) :
  has_triple s c a d →
  ¬ valid_working_directory (working_directory d) →
  ∃ e, (save_dict enumerate MP_FILEOPS s files).2 = (Throw e, files) ∧
       invalid_directory_error e.
Proof.
  intros (context & Hc & Ha) Hd.
  assert (Ht : has_triple (sanitize_contexts enumerate s) c a d).
  { exists context. split; [|done].
    rewrite (lookup_sanitize_contexts enumerate enumerate_perm), Hc.
    rewrite decide_False; [done|]. intros [_ ->].
    by rewrite lookup_empty in Ha. }
  destruct (to_json_invalid enumerate enumerate_perm _ c a d Ht Hd)
    as (e & He & HP).
  exists e. split; [|done].
  unfold save_dict. simpl. unfold mbind, M_bind, bind, lift.
  by rewrite He.
Qed.

(** X23.  The destructor saves a dirty registry only, and lets no error
    out: a registry that is not dirty leaves the files and [cerr] as they
    are, and a dirty registry with an invalid working directory leaves the
    files as they are and reports the validation error, and nothing else,
    on [cerr]. *)
Theorem destructor_reports_invalid (s : AliasDict) (files : Files)
    (cerr : list runtime_error) :
  (modified s = false →
   destructor enumerate MP_FILEOPS s files cerr = (files, cerr)) ∧
  (modified s = true →
   ∀ c a d, has_triple s c a d →
            ¬ valid_working_directory (working_directory d) →
            ∃ e, destructor enumerate MP_FILEOPS s files cerr =
                   (files, cerr ++ [e]) ∧
                 invalid_directory_error e).
Proof.
  split.
  - intros H. unfold destructor. by rewrite H.
  - intros H c a d Ht Hd.
    destruct (save_dict_invalid s files c a d Ht Hd) as (e & He & HP).
    exists e. split; [|done]. unfold destructor. rewrite H.
    destruct (save_dict enumerate MP_FILEOPS s files) as [s' [r files']].
    cbn [snd] in He. by injection He as -> ->.
Qed.

End TeardownFacts.

Lemma destructor_reports_invalid_witness :
  (∀ (A : Type) (m : gmap string A), map_order A m ≡ₚ map_to_list m) ∧
  modified bogus_registry = true ∧
  has_triple bogus_registry "work" "ll" bogus_definition ∧
  ¬ valid_working_directory (working_directory bogus_definition) ∧
  ∃ e, destructor map_order reliable bogus_registry old_files [] =
         (old_files, [] ++ [e]) ∧
       invalid_directory_error e.
Proof.
  assert (Ht : has_triple bogus_registry "work" "ll" bogus_definition).
  { eexists. split; reflexivity. }
  assert (Hd : ¬ valid_working_directory (working_directory bogus_definition)).
  { intros [H|H]; discriminate H. }
  split_and!; [exact map_order_perm | reflexivity | exact Ht | exact Hd | ].
  exact (proj2 (destructor_reports_invalid map_order map_order_perm reliable
                  bogus_registry old_files []) eq_refl
               "work" "ll" bogus_definition Ht Hd).
Defined.

(** X24.  Constructed where no file exists, the registry has no context,
    is not dirty, and its active context is the empty string, as the
    member is default-constructed and [load_dict] returns before it
    assigns it.  The first alias added then goes into a context whose name
    is the empty string. *)
Theorem constructor_without_file (ops : FileOps) (file : string)
    (files : Files) (a : string) (d : AliasDefinition) :
  files !! file = None →
  constructor ops file files = (Ret tt, mkAliasDict "" ∅ false file) ∧
  add_alias a d (constructor ops file files).2 =
    (true, mkAliasDict "" {[ "" := {[ a := d ]} ]} true file) ∧
  get_alias a (add_alias a d (constructor ops file files).2).2 = Some d.
Proof.
  intros H.
  assert (E : constructor ops file files = (Ret tt, mkAliasDict "" ∅ false file)).
  { unfold constructor, load_dict. cbn [aliases_file]. by rewrite H. }
  rewrite E. cbn [snd].
  assert (F : add_alias a d (mkAliasDict "" ∅ false file) =
              (true, mkAliasDict "" {[ "" := {[ a := d ]} ]} true file)).
  { rewrite add_alias_fresh by done. cbn [aliases active_context].
    rewrite lookup_empty. cbn [default from_option id].
    by rewrite !insert_empty. }
  rewrite F. split_and!; [done..|].
  unfold get_alias. cbn [snd aliases active_context].
  rewrite lookup_singleton_eq. apply lookup_singleton_eq.
Qed.

Lemma constructor_without_file_witness :
  (∅ : Files) !! "aliases.json" = None ∧
  constructor reliable "aliases.json" ∅ =
    (Ret tt, mkAliasDict "" ∅ false "aliases.json").
Proof.
  split; [reflexivity|].
  exact (proj1 (constructor_without_file reliable "aliases.json" ∅
                  "ll" ll_definition eq_refl)).
Defined.

(** ** Loading a file in the new format *)

Lemma obj_find_fmap {A B : Type} (f : A → B) (k : string)
    (o : list (string * A)) :
  obj_find k (prod_map id f <$> o) = f <$> obj_find k o.
Proof.
  induction o as [|[k0 x] o IH]; [done|].
  rewrite fmap_cons. cbn [prod_map fst snd id obj_find].
  by destruct (decide (k0 = k)).
Qed.

Lemma load_contexts_parsed (context_array : QJsonObject) :
  Forall (λ p : string * QJsonValue,
            Forall (λ q, valid_working_directory (working_directory q.2))
                   (parsed_entries (toObject p.2)))
         context_array →
  ∀ m, load_contexts context_array m =
       (Ret tt,
        emplace_all
          (prod_map id (λ v, emplace_all (parsed_entries (toObject v)) ∅)
             <$> context_array) m).
Proof.
  induction 1 as [|[name v] rest Hv Hrest IH]; intros m; [done|].
  cbn [load_contexts]. simpl in Hv.
  rewrite records_to_context_parsed by done.
  rewrite IH. by rewrite fmap_cons.
Qed.

Lemma load_document_new_format_parsed (records : QJsonObject)
    (s : AliasDict) :
  obj_contains "active-context" records = true →
  Forall (λ p : string * QJsonValue,
            Forall (λ q, valid_working_directory (working_directory q.2))
                   (parsed_entries (toObject p.2)))
         (toObject (obj_value "contexts" records)) →
  load_document (DocObject records) s =
    (Ret tt,
     mkAliasDict (toString (obj_value "active-context" records))
       (emplace_all
          (prod_map id (λ v, emplace_all (parsed_entries (toObject v)) ∅)
             <$> toObject (obj_value "contexts" records))
          (aliases s))
       (modified s) (aliases_file s)).
Proof.
  intros Hc Hv. unfold load_document. cbn [doc_isNull doc_object].
  assert (Hne : obj_isEmpty records = false) by by destruct records.
  rewrite Hne, Hc.
  unfold obj_contains in Hc. unfold obj_subscript at 1, obj_value at 1.
  destruct (obj_find "active-context" records) as [r|] eqn:E; [|done].
  cbn [default from_option id].
  assert (Hx : toObject (obj_subscript "contexts" records).1 =
               toObject (obj_value "contexts" records)).
  { unfold obj_subscript, obj_value.
    by destruct (obj_find "contexts" records). }
  destruct (obj_subscript "contexts" records) as [r' records'].
  cbn [fst] in Hx. rewrite Hx. by rewrite load_contexts_parsed.
Qed.

(** X25.  A file in the new format, each of whose entries that is reached
    carries a valid working directory, loads without an error: the active
    context is the string under active-context, and each key under
    contexts names a context that binds the names reached in its value
    to what was read for them; a value that is not an object gives an
    empty context. *)
Theorem load_new_format (ops : FileOps) (files : Files) (s : AliasDict)
    (records : QJsonObject) :
  files !! aliases_file s = Some (DocObject records) →
  open_fails ops (aliases_file s) = false →
  obj_contains "active-context" records = true →
  Forall (λ p : string * QJsonValue,
            Forall (λ q, valid_working_directory (working_directory q.2))
                   (parsed_entries (toObject p.2)))
         (toObject (obj_value "contexts" records)) →
  (load_dict ops files s).1 = Ret tt ∧
  active_context (load_dict ops files s).2 =
    toString (obj_value "active-context" records) ∧
  (∀ c, aliases (load_dict ops files s).2 !! c =
        (λ v, emplace_all (parsed_entries (toObject v)) ∅)
          <$> obj_find c (toObject (obj_value "contexts" records))) ∧
  (∀ c v a, obj_find c (toObject (obj_value "contexts" records)) = Some v →
            aliases (load_dict ops files s).2 !! c
              ≫= (λ context : AliasContext, context !! a) =
            obj_find a (parsed_entries (toObject v))).
Proof.
  intros Hf Ho Hc Hv. rewrite (load_dict_document _ _ _ _ Hf Ho).
  rewrite load_document_new_format_parsed by done.
  cbn [fst snd aliases active_context set_aliases].
  assert (L : ∀ c,
    emplace_all
      (prod_map id (λ v, emplace_all (parsed_entries (toObject v)) ∅)
         <$> toObject (obj_value "contexts" records)) ∅ !! c =
    (λ v, emplace_all (parsed_entries (toObject v)) ∅)
      <$> obj_find c (toObject (obj_value "contexts" records))).
  { intros c. by rewrite lookup_emplace_all, lookup_empty, obj_find_fmap. }
  split_and!; [done | done | exact L | ].
  intros c v a Hcv. rewrite L, Hcv. simpl.
  by rewrite lookup_emplace_all, lookup_empty.
Qed.

Lemma load_new_format_witness :
  new_format_files !! aliases_file initial_registry =
    Some (DocObject new_format_records) ∧
  open_fails reliable (aliases_file initial_registry) = false ∧
  obj_contains "active-context" new_format_records = true ∧
  Forall (λ p : string * QJsonValue,
            Forall (λ q, valid_working_directory (working_directory q.2))
                   (parsed_entries (toObject p.2)))
         (toObject (obj_value "contexts" new_format_records)) ∧
  (load_dict reliable new_format_files initial_registry).1 = Ret tt ∧
  active_context (load_dict reliable new_format_files initial_registry).2 =
    toString (obj_value "active-context" new_format_records).
Proof.
  assert (H : Forall (λ p : string * QJsonValue,
            Forall (λ q, valid_working_directory (working_directory q.2))
                   (parsed_entries (toObject p.2)))
         (toObject (obj_value "contexts" new_format_records))).
  { apply Forall_cons_2; [|apply Forall_nil_2].
    apply Forall_cons_2; [|apply Forall_nil_2].
    right. reflexivity. }
  split_and!; [reflexivity | reflexivity | reflexivity | exact H | | ].
  - exact (proj1 (load_new_format reliable new_format_files
                    initial_registry new_format_records
                    eq_refl eq_refl eq_refl H)).
  - exact (proj1 (proj2 (load_new_format reliable new_format_files
                    initial_registry new_format_records
                    eq_refl eq_refl eq_refl H))).
Defined.

(** ** The conversion between [std::string] and [QString] *)

Lemma convertToUnicode_ascii (src : list N) :
  Forall (λ b, (b < 0x80)%N) src → convertToUnicode src = src.
Proof.
  induction 1 as [|b src Hb Hsrc IH]; [done|].
  cbn [convertToUnicode]. unfold fromUtf8, charsNeeded.
  apply N.ltb_lt in Hb. rewrite Hb. by rewrite IH.
Qed.

Lemma skip_bom_ascii (src : list N) :
  Forall (λ b, (b < 0x80)%N) src → skip_bom src = src.
Proof.
  intros H. destruct H as [|b0 src Hb0 H]; [done|].
  destruct H as [|b1 src Hb1 H]; [done|].
  destruct H as [|b2 src Hb2 H]; [done|].
  unfold skip_bom.
  assert (E : (b0 =? 0xEF)%N = false) by (apply N.eqb_neq; lia).
  by rewrite E.
Qed.

Lemma toUtf8_ascii (q : QString) :
  Forall (λ b, (b < 0x80)%N) q → q ≫= toUtf8 = q.
Proof.
  induction 1 as [|b q Hb Hq IH]; [done|].
  cbn [mbind list_bind]. rewrite IH. unfold toUtf8.
  apply N.ltb_lt in Hb. by rewrite Hb.
Qed.

Lemma string_of_bytes_of_string (s : string) :
  string_of_bytes (bytes_of_string s) = s.
Proof.
  unfold string_of_bytes, bytes_of_string. rewrite <- list_fmap_compose.
  assert (E : ∀ l : list ascii, (ascii_of_N ∘ N_of_ascii) <$> l = l).
  { induction l as [|c l IH]; [done|].
    rewrite fmap_cons, IH. simpl. by rewrite ascii_N_embedding. }
  rewrite E. apply string_of_list_ascii_of_string.
Qed.

(** Text in ASCII goes to [QString] and back unchanged. *)
Lemma ascii_lossless (s : string) : is_ascii s → lossless s.
Proof.
  intros H. unfold lossless, json_text, fromStdString, toStdString.
  assert (B : Forall (λ b, (b < 0x80)%N) (bytes_of_string s)).
  { unfold bytes_of_string. by apply Forall_fmap. }
  rewrite skip_bom_ascii, convertToUnicode_ascii, toUtf8_ascii by done.
  apply string_of_bytes_of_string.
Qed.

(** Sequences of two, three and four bytes that are UTF-8 come back
    unchanged; a byte that is not UTF-8 comes back as the replacement
    character, and a byte order mark at the start is dropped. *)
Example json_text_examples :
  lossless (string_of_bytes
              [0xC3; 0xA9; 0xE2; 0x82; 0xAC; 0xF0; 0x9F; 0x98; 0x80]%N) ∧
  json_text name_255 = replacement_name ∧
  json_text name_254 = replacement_name ∧
  json_text name_bom_ll = "ll" ∧
  json_text (string_of_bytes [0xC0; 0x80]%N) =
    replacement_name +:+ replacement_name ∧
  json_text (string_of_bytes [0xED; 0xA0; 0x80]%N) =
    replacement_name +:+ replacement_name +:+ replacement_name.
Proof. split_and!; vm_compute; reflexivity. Qed.

Section NotUtf8AnyOrder.

Variable enumerate : ∀ A : Type, gmap string A → list (string * A).
Hypothesis enumerate_perm :
  ∀ (A : Type) (m : gmap string A), enumerate A m ≡ₚ map_to_list m.

(** Whatever the order of the traversals, neither of the two names of
    [bytes_registry] is in the registry that is loaded from the document
    that [to_json] returns for it. *)
Lemma round_trip_not_utf8_any_order :
  ∃ document,
    to_json enumerate bytes_registry = Ret document ∧
    get_alias name_255
      (load_document (DocObject document)
                     (set_aliases ∅ initial_registry)).2 = None ∧
    get_alias name_254
      (load_document (DocObject document)
                     (set_aliases ∅ initial_registry)).2 = None.
Proof.
  pose proof (enumerate_perm _ (aliases bytes_registry)) as Houter.
  pose proof (enumerate_perm _
                ({[ name_255 := ll_definition; name_254 := pw_definition ]}
                   : AliasContext)) as Hinner.
  unfold to_json, context_to_json.
  remember (enumerate _ (aliases bytes_registry)) as outer eqn:Eo.
  change (aliases bytes_registry) with
    ({[ "work" := {[ name_255 := ll_definition;
                     name_254 := pw_definition ]} ]} : DictType) in Houter.
  rewrite map_to_list_singleton in Houter.
  apply Permutation_singleton_r in Houter. subst outer. rewrite Houter.
  cbn [for_each fst snd].
  remember (enumerate _
              ({[ name_255 := ll_definition; name_254 := pw_definition ]}
                 : AliasContext)) as inner eqn:Ei.
  clear Ei Houter.
  assert (Hl : map_to_list
                 ({[ name_255 := ll_definition; name_254 := pw_definition ]}
                    : AliasContext)
               = [(name_254, pw_definition); (name_255, ll_definition)]
               ∨ map_to_list
                 ({[ name_255 := ll_definition; name_254 := pw_definition ]}
                    : AliasContext)
               = [(name_255, ll_definition); (name_254, pw_definition)]).
  { vm_compute. tauto. }
  assert (Hi : inner = [(name_254, pw_definition); (name_255, ll_definition)]
             ∨ inner = [(name_255, ll_definition); (name_254, pw_definition)]).
  { destruct Hl as [Hl|Hl]; rewrite Hl in Hinner;
      apply Permutation_sym, Permutation_length_2_inv in Hinner; tauto. }
  destruct Hi as [-> | ->]; eexists; (split; [vm_compute; reflexivity|]);
    split; vm_compute; reflexivity.
Qed.

End NotUtf8AnyOrder.
